(** * Rabin-Karp substring matching (rkgrep.c): a shallow embedding

    The C functions of [rkgrep.c] are transcribed as Rocq functions over [Z],
    for an LP64 platform: [int] has 32 bits, [size_t] and [long long] have 64.
    A [const char *] is the list of [char] values from the pointer to the end
    of the object it points into; a read outside that list, or a string
    without terminator, is undefined behaviour and shows up as [Undefined].
    The variable behind [int *first_match_ind] is threaded through: every
    matcher takes its initial contents and returns its final contents.
    The [int] loop counters stay below the length of the document, which the
    theorems keep under [2^31]. *)

From Stdlib Require Import Ascii String ZArith List Lia Bool.
Import ListNotations.
Local Open Scope Z_scope.

(** ** Outcomes of a C call *)

Inductive outcome (A : Type) : Type :=
| Done (a : A)
| Undefined
| OutOfFuel.

Arguments Done {A} a.
Arguments Undefined {A}.
Arguments OutOfFuel {A}.

Definition bind {A B : Type} (x : outcome A) (k : A -> outcome B) : outcome B :=
  match x with
  | Done a => k a
  | Undefined => Undefined
  | OutOfFuel => OutOfFuel
  end.

(** The model's loop budget was enough. *)
Definition terminates {A : Type} (x : outcome A) : Prop := x <> OutOfFuel.

Notation "x <- e ;; k" := (bind e (fun x => k))
  (at level 61, e at next level, right associativity).
Notation "' p <- e ;; k" := (bind e (fun v => let p := v in k))
  (at level 61, p pattern, e at next level, right associativity).

(** ** Machine integers and characters *)

(** Conversion to [int] (32 bits, two's complement) and to [size_t]
    (64 bits, unsigned). *)
Definition to_int (z : Z) : Z := (z + 2 ^ 31) mod 2 ^ 32 - 2 ^ 31.
Definition to_size_t (z : Z) : Z := z mod 2 ^ 64.

(** The range of [long long]. Signed overflow is undefined in C; the lemmas
    [rkhash_init_step_fits] and [rkhash_next_fits] show that the hashing code
    stays inside, so the arithmetic below is done in [Z]. *)
Definition llong_ok (z : Z) : Prop := - 2 ^ 63 <= z < 2 ^ 63.


(** [p[i]] *)
Definition rd (p : list Z) (i : Z) : outcome Z :=
  if i <? 0 then Undefined
  else match nth_error p (Z.to_nat i) with
       | Some c => Done c
       | None => Undefined
       end.

Fixpoint strlen (p : list Z) : outcome Z :=
  match p with
  | [] => Undefined
  | c :: p' => if c =? 0 then Done 0 else n <- strlen p' ;; Done (n + 1)
  end.

(** The object behind a null-terminated string with characters [s]. *)
Definition cstr (s : list Z) : list Z := s ++ [0].

(** A string literal of the source character set (ASCII, below 128). *)
Definition lit (s : string) : list Z :=
  cstr (map (fun a => Z.of_N (N_of_ascii a)) (list_ascii_of_string s)).

(** ** Modular arithmetic (rkgrep.c, lines 20-41) *)

Definition PRIME : Z := 961748941.

(** C's [%] truncates towards zero: [Z.rem]. *)
Definition madd (a b : Z) : Z := Z.rem (a + b) PRIME.

Definition msub (a b : Z) : Z := if a >? b then a - b else a + PRIME - b.

Definition mmul (a b : Z) : Z := Z.rem (a * b) PRIME.

(** ** The brute-force scanner (lines 49-72) *)

(** [for (j = 0; j < m; j++) if (pattern[j] != doc[i + j]) { equals = 0; break; }]
    with [k] iterations left. *)
Fixpoint naive_compare (k : nat) (pattern doc : list Z) (i j : Z) : outcome bool :=
  match k with
  | O => Done true
  | S k' =>
      a <- rd pattern j ;;
      b <- rd doc (i + j) ;;
      if a =? b then naive_compare k' pattern doc i (j + 1) else Done false
  end.

(** [for (i = 0; i < doc_len - m; i++)], a signed comparison, with [k]
    iterations left. *)
Fixpoint naive_scan (k : nat) (pattern doc : list Z) (m i match_count fmi : Z)
  : outcome (Z * Z) :=
  match k with
  | O => Done (match_count, fmi)
  | S k' =>
      equals <- naive_compare (Z.to_nat m) pattern doc i 0 ;;
      if equals : bool
      then naive_scan k' pattern doc m (i + 1) (match_count + 1)
             (if match_count =? 0 then i else fmi)
      else naive_scan k' pattern doc m (i + 1) match_count fmi
  end.

Definition naive_substring_match (pattern doc : list Z) (fmi : Z) : outcome (Z * Z) :=
  lp <- strlen pattern ;;
  ld <- strlen doc ;;
  let m := to_int lp in
  let doc_len := to_int ld in
  naive_scan (Z.to_nat (doc_len - m)) pattern doc m 0 0 fmi.

(** ** The rolling hash (lines 80-101) *)

(** [for (i = m - 1; i >= 0; i--)]: the argument [n] is [i + 1]. Returns
    [(sum, *h)]. *)
Fixpoint rkhash_init_from (charbuf : list Z) (n : nat) (h sum : Z) : outcome (Z * Z) :=
  match n with
  | O => Done (sum, h)
  | S i =>
      c <- rd charbuf (Z.of_nat i) ;;
      rkhash_init_from charbuf i (mmul h 256) (madd (mmul h c) sum)
  end.

Definition rkhash_init (charbuf : list Z) (m : Z) : outcome (Z * Z) :=
  rkhash_init_from charbuf (Z.to_nat m) 1 0.

Definition rkhash_next (curr_hash h leftmost rightmost : Z) : Z :=
  madd (msub (mmul curr_hash 256) (mmul leftmost h)) rightmost.

(** ** The Rabin-Karp matcher (lines 108-145) *)

(** [for (j = i; j < i + m; j++) if (pattern[j - i] != doc[j]) { ver = 0; break; }] *)
Fixpoint rk_verify (k : nat) (pattern doc : list Z) (i j : Z) : outcome bool :=
  match k with
  | O => Done true
  | S k' =>
      a <- rd pattern (j - i) ;;
      b <- rd doc j ;;
      if a =? b then rk_verify k' pattern doc i (j + 1) else Done false
  end.

(** The loop test [i < strlen(doc) - m]: [strlen] yields a [size_t], so [m]
    and [i] are converted to [size_t] and the subtraction wraps. *)
Definition rk_continue (n m i : Z) : bool :=
  to_size_t i <? to_size_t (n - to_size_t m).

Fixpoint rk_scan (fuel : nat) (pattern doc : list Z) (m n h pattern_hash : Z)
  (i curr_hash sum_matches fmi : Z) : outcome (Z * Z) :=
  if negb (rk_continue n m i) then Done (sum_matches, fmi)
  else
    match fuel with
    | O => OutOfFuel
    | S fuel' =>
        '(sum_matches', fmi') <-
          (if curr_hash =? pattern_hash
           then ver <- rk_verify (Z.to_nat m) pattern doc i i ;;
                Done (if ver : bool then (sum_matches + 1, i) else (sum_matches, fmi))
           else Done (sum_matches, fmi)) ;;
        leftmost <- rd doc i ;;
        rightmost <- rd doc (i + m) ;;
        rk_scan fuel' pattern doc m n h pattern_hash
          (i + 1) (rkhash_next curr_hash h leftmost rightmost) sum_matches' fmi'
    end.

(** Every completed iteration reads [doc[i]] inside the object, so the loop
    runs at most [length doc] times before it leaves or reads outside. *)
Definition rk_substring_match (pattern doc : list Z) (fmi : Z) : outcome (Z * Z) :=
  lp <- strlen pattern ;;
  let m := to_int lp in
  '(curr_hash, h) <- rkhash_init doc m ;;
  '(pattern_hash, h_decoy) <- rkhash_init pattern m ;;
  n <- strlen doc ;;
  rk_scan (S (length doc)) pattern doc m n h pattern_hash 0 curr_hash 0 fmi.

(** ** The membership filter (bloom.h) *)

(** Modelled from the spec: [bloom.h] and [bloom.c] (the type [bloom_filter]
    and [bloom_init], [bloom_add], [bloom_query]) are not among the sources.
    The filter is an opaque structure; creation fails only on a non-positive
    capacity, insertion is unconditional and there is no removal, and a query
    answers [true] for every value inserted before (false positives are
    allowed, false negatives are not). *)
Class BloomFilter : Type := {
  bloom_filter : Type;
  bloom_init : Z -> option bloom_filter;
  bloom_add : bloom_filter -> Z -> bloom_filter;
  bloom_query : bloom_filter -> Z -> bool;
  bloom_init_pos : forall size, 0 < size -> bloom_init size <> None;
  bloom_query_add : forall bf x, bloom_query (bloom_add bf x) x = true;
  bloom_query_mono : forall bf x y,
      bloom_query bf y = true -> bloom_query (bloom_add bf x) y = true
}.

(** Two sample filters, neither of them the repository's: an exact one, the
    list of the inserted values, *)
Definition exact_init (size : Z) : option (list Z) :=
  if 0 <? size then Some [] else None.
Definition exact_add (bf : list Z) (x : Z) : list Z := x :: bf.
Definition exact_query (bf : list Z) (x : Z) : bool := existsb (Z.eqb x) bf.

(** and a one-hash Bloom filter over [size] bits, with false positives. *)
Record bits : Type := { nbits : Z; set_bits : list Z }.
Definition bucket_init (size : Z) : option bits :=
  if 0 <? size then Some {| nbits := size; set_bits := [] |} else None.
Definition bucket_add (bf : bits) (x : Z) : bits :=
  {| nbits := nbits bf; set_bits := (x mod nbits bf) :: set_bits bf |}.
Definition bucket_query (bf : bits) (x : Z) : bool :=
  existsb (Z.eqb (x mod nbits bf)) (set_bits bf).

(** Both meet the contract. *)

Lemma exact_init_pos size : 0 < size -> exact_init size <> None.
Proof. intros H. unfold exact_init. destruct (Z.ltb_spec 0 size); [discriminate | lia]. Qed.

Lemma exact_query_add bf x : exact_query (exact_add bf x) x = true.
Proof. unfold exact_query, exact_add. cbn [existsb]. rewrite Z.eqb_refl. reflexivity. Qed.

Lemma exact_query_mono bf x y :
  exact_query bf y = true -> exact_query (exact_add bf x) y = true.
Proof. unfold exact_query, exact_add. cbn [existsb]. intros ->. apply orb_true_r. Qed.

Definition exact_filter : BloomFilter :=
  {| bloom_filter := list Z;
     bloom_init := exact_init;
     bloom_add := exact_add;
     bloom_query := exact_query;
     bloom_init_pos := exact_init_pos;
     bloom_query_add := exact_query_add;
     bloom_query_mono := exact_query_mono |}.

Lemma bucket_init_pos size : 0 < size -> bucket_init size <> None.
Proof. intros H. unfold bucket_init. destruct (Z.ltb_spec 0 size); [discriminate | lia]. Qed.

Lemma bucket_query_add bf x : bucket_query (bucket_add bf x) x = true.
Proof. unfold bucket_query, bucket_add. cbn. rewrite Z.eqb_refl. reflexivity. Qed.

Lemma bucket_query_mono bf x y :
  bucket_query bf y = true -> bucket_query (bucket_add bf x) y = true.
Proof. unfold bucket_query, bucket_add. cbn. intros ->. apply orb_true_r. Qed.

Definition bucket_filter : BloomFilter :=
  {| bloom_filter := bits;
     bloom_init := bucket_init;
     bloom_add := bucket_add;
     bloom_query := bucket_query;
     bloom_init_pos := bucket_init_pos;
     bloom_query_add := bucket_query_add;
     bloom_query_mono := bucket_query_mono |}.

(** The second one has false positives: [5] was never inserted. *)
Example bucket_false_positive :
  option_map (fun bf => bucket_query (bucket_add bf 1) 5) (bucket_init 4) = Some true.
Proof. reflexivity. Qed.

(** ** Filter construction and the filtered matcher (lines 152-189) *)

Section Filtered.
Context {B : BloomFilter}.

(** The loop test [i < strlen(doc) - m + 1], again in [size_t]. *)
Definition bloom_continue (n m i : Z) : bool :=
  to_size_t i <? to_size_t (to_size_t (n - to_size_t m) + 1).

Fixpoint bloom_scan (fuel : nat) (doc : list Z) (m n h : Z)
  (i curr_hash : Z) (bf : bloom_filter) : outcome bloom_filter :=
  if negb (bloom_continue n m i) then Done bf
  else
    match fuel with
    | O => OutOfFuel
    | S fuel' =>
        let bf' := bloom_add bf curr_hash in
        leftmost <- rd doc i ;;
        rightmost <- rd doc (i + m) ;;
        bloom_scan fuel' doc m n h (i + 1)
          (rkhash_next curr_hash h leftmost rightmost) bf'
    end.

(** A failed [bloom_init] is not checked by the caller and the filter is
    handed on to [bloom_add]; the contract says nothing about that case. *)
Definition rk_create_doc_bloom (m : Z) (doc : list Z) (bloom_size : Z)
  : outcome bloom_filter :=
  match bloom_init bloom_size with
  | None => Undefined
  | Some bf =>
      '(curr_hash, h) <- rkhash_init doc m ;;
      n <- strlen doc ;;
      bloom_scan (S (length doc)) doc m n h 0 curr_hash bf
  end.

(** The result is the returned [int], if any, with the final contents of
    [*first_match_ind]. On the positive branch the call of
    [rk_substring_match] is not under a [return]: control reaches the
    closing brace of the function and no value is returned ([None]). *)
Definition rk_substring_match_using_bloom (pattern doc : list Z)
  (bf : bloom_filter) (fmi : Z) : outcome (option Z * Z) :=
  lp <- strlen pattern ;;
  '(pattern_hash, h) <- rkhash_init pattern (to_int lp) ;;
  if bloom_query bf pattern_hash
  then '(sum_matches, fmi') <- rk_substring_match pattern doc fmi ;;
       Done (None, fmi')
  else Done (Some 0, fmi).
End Filtered.

(** ** What the spec asks of the hash, and where a pattern occurs *)

(** The polynomial [sum of w[i] * 256^(m-1-i)] of section 4.2 of the design,
    written after its words; [horner_hash] is its residue in [[0, PRIME)]. *)
Fixpoint poly256 (w : list Z) : Z :=
  match w with
  | [] => 0
  | c :: w' => c * 256 ^ Z.of_nat (length w') + poly256 w'
  end.

Definition horner_hash (w : list Z) : Z := poly256 w mod PRIME.

(** The [m] characters of [doc] from index [i] on. *)
Definition window (doc : list Z) (i m : nat) : list Z := firstn m (skipn i doc).

(** Byte-wise comparison of [pattern[0..m)] with [doc[i..i+m)]. *)
Definition occurs_atb (pattern doc : list Z) (m i : nat) : bool :=
  forallb (fun u => nth u pattern 0 =? nth (i + u) doc 0) (seq 0 m).

(** The start indices among [i, i+1, ..., i+k-1] at which the pattern occurs. *)
Definition hits (pattern doc : list Z) (m i k : nat) : list Z :=
  map Z.of_nat (filter (occurs_atb pattern doc m) (seq i k)).

(** The hash after [k] further shifts of the window, as both scanning loops
    compute it: [curr_hash = rkhash_next(curr_hash, h, doc[i], doc[i + m])]. *)
Fixpoint roll (k : nat) (doc : list Z) (m h i curr_hash : Z) : outcome Z :=
  match k with
  | O => Done curr_hash
  | S k' =>
      leftmost <- rd doc i ;;
      rightmost <- rd doc (i + m) ;;
      roll k' doc m h (i + 1) (rkhash_next curr_hash h leftmost rightmost)
  end.

(** [rkhash_init] on the first window, then [i] times [rkhash_next]. *)
Definition rolled_hash (doc : list Z) (m : Z) (i : nat) : outcome Z :=
  '(curr_hash, h) <- rkhash_init doc m ;;
  roll i doc m h 0 curr_hash.

(** [rkhash_init] on the window that starts at [doc + i]. *)
Definition direct_hash (doc : list Z) (m : Z) (i : nat) : outcome Z :=
  '(sum, h) <- rkhash_init (skipn i doc) m ;;
  Done sum.



(** Characters with a non-negative value: every byte where [char] is
    unsigned, the bytes below 128 where it is signed. *)
Definition nonneg_chars (s : list Z) : Prop := Forall (fun c => 0 <= c <= 255) s.

(** The characters of a string proper: in the range of some [char] type and
    different from the terminator. *)
Definition string_chars (s : list Z) : Prop :=
  Forall (fun c => -128 <= c <= 255 /\ c <> 0) s.

(** * Modular arithmetic *)

Lemma PRIME_pos : 0 < PRIME.
Proof. reflexivity. Qed.

Lemma madd_nonneg a b : 0 <= a -> 0 <= b -> madd a b = (a + b) mod PRIME.
Proof. intros Ha Hb. unfold madd. apply Z.rem_mod_nonneg; [lia | reflexivity]. Qed.

Lemma mmul_nonneg a b : 0 <= a -> 0 <= b -> mmul a b = (a * b) mod PRIME.
Proof. intros Ha Hb. unfold mmul. apply Z.rem_mod_nonneg; [nia | reflexivity]. Qed.

Lemma msub_range a b :
  0 <= a < PRIME -> 0 <= b < PRIME -> 0 < msub a b <= PRIME.
Proof. intros Ha Hb. unfold msub. destruct (Z.gtb_spec a b); lia. Qed.

Lemma msub_mod a b : (msub a b) mod PRIME = (a - b) mod PRIME.
Proof.
  unfold msub. destruct (a >? b); [reflexivity |].
  replace (a + PRIME - b) with (a - b + 1 * PRIME) by ring.
  apply Z.mod_add. discriminate.
Qed.

(** Apart from [a = b] the subtraction is the residue the comment promises. *)
Lemma msub_neq a b :
  0 <= a < PRIME -> 0 <= b < PRIME -> a <> b -> msub a b = (a - b) mod PRIME.
Proof.
  intros Ha Hb Hab. rewrite <- msub_mod. symmetry. apply Z.mod_small.
  unfold msub. destruct (Z.gtb_spec a b); lia.
Qed.

Lemma madd_bound a b : - PRIME < madd a b < PRIME.
Proof.
  unfold madd. pose proof (Z.rem_bound_abs (a + b) PRIME).
  assert (PRIME <> 0) by discriminate. unfold PRIME in *. lia.
Qed.

Lemma mmul_bound a b : - PRIME < mmul a b < PRIME.
Proof.
  unfold mmul. pose proof (Z.rem_bound_abs (a * b) PRIME).
  assert (PRIME <> 0) by discriminate. unfold PRIME in *. lia.
Qed.

Lemma mmul_nonneg_range a b : 0 <= a -> 0 <= b -> 0 <= mmul a b < PRIME.
Proof.
  intros Ha Hb. rewrite mmul_nonneg by assumption. apply Z.mod_pos_bound, PRIME_pos.
Qed.

(** The arithmetic stays inside [long long]: one pass of the loop of
    [rkhash_init], and one [rkhash_next]. *)
Lemma rkhash_init_step_fits (h c sum : Z) :
  0 <= h < PRIME -> -128 <= c <= 255 -> - PRIME < sum < PRIME ->
  llong_ok (h * c) /\ llong_ok (mmul h c + sum) /\ llong_ok (h * 256).
Proof.
  intros Hh Hc Hs. pose proof (mmul_bound h c) as Hm.
  unfold llong_ok, PRIME in *. repeat split; nia.
Qed.


(** * Reading strings *)

Lemma rd_nth p (i : nat) : (i < length p)%nat -> rd p (Z.of_nat i) = Done (nth i p 0).
Proof.
  intros Hi. unfold rd.
  destruct (Z.ltb_spec (Z.of_nat i) 0) as [Hneg | _]; [lia |].
  rewrite Nat2Z.id. destruct (nth_error p i) as [c |] eqn:E.
  - f_equal. symmetry. apply nth_error_nth. exact E.
  - apply nth_error_None in E. lia.
Qed.

Lemma rd_outside p (i : Z) : Z.of_nat (length p) <= i -> rd p i = Undefined.
Proof.
  intros Hi. unfold rd.
  destruct (Z.ltb_spec i 0) as [_ | Hpos]; [reflexivity |].
  destruct (nth_error p (Z.to_nat i)) eqn:E; [| reflexivity].
  assert (nth_error p (Z.to_nat i) <> None) as Hn by congruence.
  apply nth_error_Some in Hn. lia.
Qed.

Lemma strlen_cstr s : string_chars s -> strlen (cstr s) = Done (Z.of_nat (length s)).
Proof.
  unfold cstr. induction 1 as [| c s [_ Hc] _ IH]; [reflexivity |].
  cbn [app strlen length]. destruct (Z.eqb_spec c 0) as [E | _]; [contradiction |].
  rewrite IH. cbn [bind]. f_equal. lia.
Qed.

Lemma length_cstr s : length (cstr s) = S (length s).
Proof. unfold cstr. rewrite length_app. cbn. lia. Qed.

Lemma nonneg_chars_cstr s : nonneg_chars s -> nonneg_chars (cstr s).
Proof.
  intros Hs. unfold cstr. apply Forall_app. split; [exact Hs |].
  constructor; [lia | constructor].
Qed.

Lemma nonneg_chars_nth s i : nonneg_chars s -> 0 <= nth i s 0 <= 255.
Proof.
  intros Hs. destruct (Nat.lt_ge_cases i (length s)) as [Hi | Hi].
  - unfold nonneg_chars in Hs. rewrite Forall_forall in Hs. apply Hs, nth_In, Hi.
  - rewrite nth_overflow by exact Hi. lia.
Qed.


Lemma to_int_small z : 0 <= z < 2 ^ 31 -> to_int z = z.
Proof. intros Hz. unfold to_int. rewrite Z.mod_small; lia. Qed.

Lemma to_size_t_small z : 0 <= z < 2 ^ 64 -> to_size_t z = z.
Proof. intros Hz. unfold to_size_t. apply Z.mod_small. exact Hz. Qed.

(** * The hash of a window *)

Lemma poly256_nonneg w : nonneg_chars w -> 0 <= poly256 w.
Proof.
  induction 1 as [| c w Hc _ IH]; cbn [poly256]; [lia |].
  assert (0 <= 256 ^ Z.of_nat (length w)) by (apply Z.pow_nonneg; lia). nia.
Qed.

Lemma poly256_snoc w c : poly256 (w ++ [c]) = poly256 w * 256 + c.
Proof.
  induction w as [| d w IH]; cbn [app poly256 length]; [simpl; lia |].
  rewrite IH, length_app. cbn [length]. rewrite Nat.add_1_r, Nat2Z.inj_succ.
  rewrite Z.pow_succ_r by lia. ring.
Qed.


Lemma firstn_succ_nth (p : list Z) (n : nat) :
  (n < length p)%nat -> firstn (S n) p = firstn n p ++ [nth n p 0].
Proof.
  revert n. induction p as [| c p IH]; intros n Hn; cbn [length] in Hn; [lia |].
  destruct n as [| n]; [reflexivity |].
  cbn [firstn nth app]. f_equal. apply IH. lia.
Qed.

Lemma nonneg_chars_firstn n s : nonneg_chars s -> nonneg_chars (firstn n s).
Proof.
  unfold nonneg_chars. intros Hs. rewrite <- (firstn_skipn n s) in Hs.
  apply Forall_app in Hs. apply Hs.
Qed.

Lemma nonneg_chars_skipn n s : nonneg_chars s -> nonneg_chars (skipn n s).
Proof.
  unfold nonneg_chars. intros Hs. rewrite <- (firstn_skipn n s) in Hs.
  apply Forall_app in Hs. apply Hs.
Qed.


(** The loop of [rkhash_init] entered with [h = 256^k] and the residue of [t]
    in [sum], the characters from [n] on already consumed. *)
Lemma rkhash_init_from_spec charbuf :
  nonneg_chars charbuf ->
  forall (n : nat) (k t : Z),
    (n <= length charbuf)%nat -> 0 <= k -> 0 <= t ->
    rkhash_init_from charbuf n (256 ^ k mod PRIME) (t mod PRIME) =
    Done ((poly256 (firstn n charbuf) * 256 ^ k + t) mod PRIME,
          256 ^ (k + Z.of_nat n) mod PRIME).
Proof.
  intros Hc n. induction n as [| n IH]; intros k t Hn Hk Ht.
  - cbn [rkhash_init_from firstn poly256]. rewrite Z.add_0_r. reflexivity.
  - cbn [rkhash_init_from]. rewrite rd_nth by lia. cbn [bind].
    pose proof (nonneg_chars_nth charbuf n Hc) as Hcn.
    set (c := nth n charbuf 0) in *.
    assert (0 <= 256 ^ k) as Hp by (apply Z.pow_nonneg; lia).
    pose proof (Z.mod_pos_bound (256 ^ k) PRIME PRIME_pos) as Hh.
    pose proof (Z.mod_pos_bound t PRIME PRIME_pos) as Hs.
    rewrite (mmul_nonneg _ 256) by lia.
    rewrite (mmul_nonneg _ c) by lia.
    rewrite madd_nonneg by (try apply Z.mod_pos_bound; lia || reflexivity).
    rewrite !Z.mul_mod_idemp_l by discriminate.
    rewrite <- Z.add_mod by discriminate.
    replace (256 ^ k * 256) with (256 ^ (k + 1)) by (rewrite Z.pow_add_r by lia; lia).
    rewrite IH by (try lia; nia).
    rewrite firstn_succ_nth by lia. fold c. rewrite poly256_snoc.
    f_equal. f_equal.
    + f_equal. rewrite Z.pow_add_r by lia. ring.
    + f_equal. f_equal. lia.
Qed.

(** [rkhash_init] on non-negative characters: the hash the design asks for,
    and [256^m] as the radix power. *)
Lemma rkhash_init_spec charbuf (m : nat) :
  nonneg_chars charbuf -> (m <= length charbuf)%nat ->
  rkhash_init charbuf (Z.of_nat m) =
  Done (horner_hash (firstn m charbuf), 256 ^ Z.of_nat m mod PRIME).
Proof.
  intros Hc Hm. unfold rkhash_init, horner_hash. rewrite Nat2Z.id.
  change 1 with (256 ^ 0 mod PRIME) at 1. change 0 with (0 mod PRIME) at 2.
  rewrite rkhash_init_from_spec by (assumption || lia).
  rewrite Z.pow_0_r, Z.mul_1_r, Z.add_0_r, Z.add_0_l. reflexivity.
Qed.

(** Shifting a window by one: drop the leftmost term, scale, add the new
    character. *)
Lemma poly256_slide (m : nat) : forall (c : Z) (rest : list Z),
  (m <= length rest)%nat ->
  poly256 (firstn m rest) =
  256 * poly256 (firstn m (c :: rest)) - c * 256 ^ Z.of_nat m + nth m (c :: rest) 0.
Proof.
  induction m as [| m IH]; intros c rest Hm.
  - cbn. lia.
  - destruct rest as [| d rest]; cbn [length] in Hm; [lia |].
    specialize (IH d rest ltac:(lia)).
    cbn [firstn poly256 nth] in *. rewrite IH.
    rewrite !length_firstn. cbn [length].
    rewrite !Nat.min_l by lia.
    rewrite Nat2Z.inj_succ, Z.pow_succ_r by lia. ring.
Qed.

Lemma skipn_nth_cons (p : list Z) (i : nat) :
  (i < length p)%nat -> skipn i p = nth i p 0 :: skipn (S i) p.
Proof.
  revert i. induction p as [| c p IH]; intros i Hi; cbn [length] in Hi; [lia |].
  destruct i as [| i]; [reflexivity |].
  cbn [skipn nth]. rewrite IH by lia. reflexivity.
Qed.

Lemma nth_skipn_add (p : list Z) (i u : nat) : nth u (skipn i p) 0 = nth (i + u) p 0.
Proof.
  revert i. induction p as [| c p IH]; intros i.
  - rewrite skipn_nil. destruct u, i; reflexivity.
  - destruct i as [| i]; [reflexivity |]. cbn [skipn Nat.add nth]. apply IH.
Qed.

Lemma poly256_window_slide doc (i m : nat) :
  (i + m < length doc)%nat ->
  poly256 (window doc (S i) m) =
  256 * poly256 (window doc i m) - nth i doc 0 * 256 ^ Z.of_nat m + nth (i + m) doc 0.
Proof.
  intros Hb. unfold window. rewrite (skipn_nth_cons doc i) by lia.
  rewrite (poly256_slide m (nth i doc 0) (skipn (S i) doc)).
  - f_equal. destruct m as [| m].
    + cbn [nth]. rewrite Nat.add_0_r. reflexivity.
    + cbn [nth]. rewrite nth_skipn_add. f_equal. lia.
  - rewrite length_skipn. lia.
Qed.

Lemma mod_offset x : exists q, x mod PRIME = x + q * PRIME.
Proof. exists (- (x / PRIME)). rewrite Z.mod_eq by discriminate. ring. Qed.

Lemma mod_same_offset x y q : x = y + q * PRIME -> x mod PRIME = y mod PRIME.
Proof. intros ->. apply Z.mod_add. discriminate. Qed.

(** One [rkhash_next] on residues of non-negative numbers. *)
Lemma rkhash_next_mod (a hp l r : Z) :
  0 <= a -> 0 <= hp -> 0 <= l -> 0 <= r ->
  rkhash_next (a mod PRIME) (hp mod PRIME) l r = (256 * a - l * hp + r) mod PRIME.
Proof.
  intros Ha Hh Hl Hr. unfold rkhash_next.
  pose proof (Z.mod_pos_bound a PRIME PRIME_pos) as Ba.
  pose proof (Z.mod_pos_bound hp PRIME PRIME_pos) as Bh.
  pose proof (mmul_nonneg_range (a mod PRIME) 256 ltac:(lia) ltac:(lia)) as B1.
  pose proof (mmul_nonneg_range l (hp mod PRIME) ltac:(lia) ltac:(lia)) as B2.
  pose proof (msub_range _ _ B1 B2) as B3.
  rewrite madd_nonneg by lia.
  assert (exists e, msub (mmul (a mod PRIME) 256) (mmul l (hp mod PRIME)) =
                    mmul (a mod PRIME) 256 - mmul l (hp mod PRIME) + e * PRIME) as [e ->].
  { unfold msub. destruct (_ >? _); [exists 0 | exists 1]; ring. }
  rewrite !mmul_nonneg by lia.
  destruct (mod_offset a) as [q1 ->]. destruct (mod_offset hp) as [q2 ->].
  destruct (mod_offset ((a + q1 * PRIME) * 256)) as [q3 ->].
  destruct (mod_offset (l * (hp + q2 * PRIME))) as [q4 ->].
  apply mod_same_offset with (q := 256 * q1 + q3 - l * q2 - q4 + e). ring.
Qed.

(** The rolling update on a document of non-negative characters: from the
    hash of the window at [i] to the hash of the window at [i + 1]. *)
Lemma rkhash_next_window doc (i m : nat) :
  nonneg_chars doc -> (i + m < length doc)%nat ->
  rkhash_next (horner_hash (window doc i m)) (256 ^ Z.of_nat m mod PRIME)
    (nth i doc 0) (nth (i + m) doc 0) =
  horner_hash (window doc (S i) m).
Proof.
  intros Hc Hb. unfold horner_hash.
  pose proof (nonneg_chars_nth doc i Hc). pose proof (nonneg_chars_nth doc (i + m) Hc).
  rewrite rkhash_next_mod.
  - rewrite poly256_window_slide by exact Hb. reflexivity.
  - apply poly256_nonneg. unfold window. apply nonneg_chars_firstn, nonneg_chars_skipn, Hc.
  - apply Z.pow_nonneg. lia.
  - lia.
  - lia.
Qed.

(** * Comparing the pattern with a window *)

Lemma rk_verify_spec pattern doc (i : nat) :
  forall (k t : nat),
    (t + k <= length pattern)%nat -> (i + t + k <= length doc)%nat ->
    rk_verify k pattern doc (Z.of_nat i) (Z.of_nat (i + t)) =
    Done (forallb (fun u => nth u pattern 0 =? nth (i + u) doc 0) (seq t k)).
Proof.
  induction k as [| k IH]; intros t Hp Hd; [reflexivity |].
  cbn [rk_verify seq forallb].
  replace (Z.of_nat (i + t) - Z.of_nat i) with (Z.of_nat t) by lia.
  rewrite !rd_nth by lia. cbn [bind].
  destruct (nth t pattern 0 =? nth (i + t) doc 0); [| reflexivity].
  replace (Z.of_nat (i + t) + 1) with (Z.of_nat (i + S t)) by lia.
  rewrite IH by lia. reflexivity.
Qed.

Lemma naive_compare_spec pattern doc (i : nat) :
  forall (k t : nat),
    (t + k <= length pattern)%nat -> (i + t + k <= length doc)%nat ->
    naive_compare k pattern doc (Z.of_nat i) (Z.of_nat t) =
    Done (forallb (fun u => nth u pattern 0 =? nth (i + u) doc 0) (seq t k)).
Proof.
  induction k as [| k IH]; intros t Hp Hd; [reflexivity |].
  cbn [naive_compare seq forallb].
  replace (Z.of_nat i + Z.of_nat t) with (Z.of_nat (i + t)) by lia.
  rewrite !rd_nth by lia. cbn [bind].
  destruct (nth t pattern 0 =? nth (i + t) doc 0); [| reflexivity].
  replace (Z.of_nat t + 1) with (Z.of_nat (S t)) by lia.
  rewrite IH by lia. reflexivity.
Qed.

(** The comparison decides whether the window is the pattern. *)
Lemma occurs_atb_window pattern doc (m i : nat) :
  (m <= length pattern)%nat -> (i + m <= length doc)%nat ->
  occurs_atb pattern doc m i = true <-> window doc i m = firstn m pattern.
Proof.
  intros Hp Hd. unfold occurs_atb, window. rewrite forallb_forall. split.
  - intros H. apply nth_ext with (d := 0) (d' := 0).
    + rewrite !length_firstn, length_skipn. lia.
    + intros u Hu. rewrite length_firstn, length_skipn in Hu.
      rewrite !nth_firstn. 
      destruct (Nat.ltb_spec u m) as [Hum | Hum]; [| lia].
      rewrite nth_skipn_add. symmetry. apply Z.eqb_eq, H, in_seq. lia.
  - intros H u Hu. apply in_seq in Hu. apply Z.eqb_eq.
    apply (f_equal (fun l => nth u l 0)) in H.
    rewrite !nth_firstn in H.
    destruct (Nat.ltb_spec u m) as [Hum | Hum]; [| lia].
    rewrite nth_skipn_add in H. symmetry. exact H.
Qed.

Lemma occurs_atb_cstr p s (i : nat) :
  (i + length p <= length s)%nat ->
  occurs_atb (cstr p) (cstr s) (length p) i = true <-> window s i (length p) = p.
Proof.
  intros Hb. rewrite occurs_atb_window by (rewrite length_cstr; lia).
  unfold window, cstr. rewrite firstn_app, Nat.sub_diag, firstn_all, app_nil_r.
  rewrite skipn_app, firstn_app, length_skipn.
  replace (length p - (length s - i))%nat with 0%nat by lia.
  cbn [firstn]. rewrite app_nil_r. reflexivity.
Qed.

(** * The scanning loops *)

Lemma last_cons (l : list Z) : forall a d, last (a :: l) d = last l a.
Proof.
  induction l as [| b l IH]; intros a d; [reflexivity |].
  change (last (a :: b :: l) d) with (last (b :: l) d). rewrite !IH. reflexivity.
Qed.

Lemma hits_step pattern doc (m i k : nat) :
  hits pattern doc m i (S k) =
  if occurs_atb pattern doc m i
  then Z.of_nat i :: hits pattern doc m (S i) k
  else hits pattern doc m (S i) k.
Proof.
  unfold hits. cbn [seq filter]. destruct (occurs_atb pattern doc m i); reflexivity.
Qed.

Lemma rk_continue_inside (n m i : nat) :
  Z.of_nat n < 2 ^ 31 -> (i + m <= n)%nat ->
  rk_continue (Z.of_nat n) (Z.of_nat m) (Z.of_nat i) = (Z.of_nat i <? Z.of_nat (n - m)).
Proof.
  intros Hn Hb. unfold rk_continue.
  rewrite (to_size_t_small (Z.of_nat m)) by lia.
  rewrite !to_size_t_small by lia. f_equal. lia.
Qed.

Section ScanInvariant.
Variables p s : list Z.
Variables h pattern_hash : Z.

(** What is known of [curr_hash] when the window starts at [i]. *)
Variable Inv : nat -> Z -> Prop.

Hypothesis Hlen : Z.of_nat (length s) < 2 ^ 31.

Hypothesis Inv_hit : forall i c,
    (i + length p <= length s)%nat -> Inv i c ->
    occurs_atb (cstr p) (cstr s) (length p) i = true -> c = pattern_hash.

Hypothesis Inv_step : forall i c,
    (i + length p <= length s)%nat -> Inv i c ->
    Inv (S i) (rkhash_next c h (nth i (cstr s) 0) (nth (i + length p) (cstr s) 0)).

(** With [k] start indices left before [length s - length p], the loop of
    [rk_substring_match] counts the occurrences among them and leaves the
    last of them in [*first_match_ind]. *)
Lemma rk_scan_inv : forall (k i fuel : nat) (c cnt fmi : Z),
    (i + k + length p = length s)%nat -> (k < fuel)%nat -> Inv i c ->
    rk_scan fuel (cstr p) (cstr s) (Z.of_nat (length p)) (Z.of_nat (length s))
      h pattern_hash (Z.of_nat i) c cnt fmi =
    Done (cnt + Z.of_nat (length (hits (cstr p) (cstr s) (length p) i k)),
          last (hits (cstr p) (cstr s) (length p) i k) fmi).
Proof.
  induction k as [| k IH]; intros i fuel c cnt fmi Hk Hf HI;
    (destruct fuel as [| fuel]; [lia |]); cbn [rk_scan];
    rewrite rk_continue_inside by lia.
  - destruct (Z.ltb_spec (Z.of_nat i) (Z.of_nat (length s - length p))); [lia |].
    cbn. f_equal. f_equal. lia.
  - destruct (Z.ltb_spec (Z.of_nat i) (Z.of_nat (length s - length p))); [| lia].
    cbn [negb]. rewrite Nat2Z.id.
    pose proof (rk_verify_spec (cstr p) (cstr s) i (length p) 0) as Hv.
    rewrite Nat.add_0_r in Hv. rewrite !length_cstr in Hv.
    specialize (Hv ltac:(lia) ltac:(lia)). fold (occurs_atb (cstr p) (cstr s) (length p) i) in Hv.
    rewrite Hv. clear Hv. rewrite hits_step.
    replace (Z.of_nat i + Z.of_nat (length p)) with (Z.of_nat (i + length p)) by lia.
    replace (Z.of_nat i + 1) with (Z.of_nat (S i)) by lia.
    assert (forall cnt' fmi',
      (leftmost <- rd (cstr s) (Z.of_nat i) ;;
       rightmost <- rd (cstr s) (Z.of_nat (i + length p)) ;;
       rk_scan fuel (cstr p) (cstr s) (Z.of_nat (length p)) (Z.of_nat (length s))
         h pattern_hash (Z.of_nat (S i))
         (rkhash_next c h leftmost rightmost) cnt' fmi') =
      Done (cnt' + Z.of_nat (length (hits (cstr p) (cstr s) (length p) (S i) k)),
            last (hits (cstr p) (cstr s) (length p) (S i) k) fmi')) as Hrest.
    { intros cnt' fmi'. rewrite !rd_nth by (rewrite length_cstr; lia). cbn [bind].
      apply IH; [lia | lia |]. apply Inv_step; [lia | exact HI]. }
    destruct (occurs_atb (cstr p) (cstr s) (length p) i) eqn:Hocc.
    + assert ((c =? pattern_hash) = true) as ->
        by (apply Z.eqb_eq, (Inv_hit i c ltac:(lia) HI Hocc)).
      cbn [bind]. rewrite Hrest, last_cons. cbn [length]. f_equal. f_equal. lia.
    + destruct (c =? pattern_hash); cbn [bind]; apply Hrest.
Qed.
End ScanInvariant.

(** The loop of [naive_substring_match] over [k] start indices from [i]:
    it counts the occurrences and records the first one. *)
Lemma naive_scan_spec p s : forall (k i : nat) (cnt fmi : Z),
  (i + k + length p <= length s)%nat -> 0 <= cnt ->
  naive_scan k (cstr p) (cstr s) (Z.of_nat (length p)) (Z.of_nat i) cnt fmi =
  Done (cnt + Z.of_nat (length (hits (cstr p) (cstr s) (length p) i k)),
        if cnt =? 0 then hd fmi (hits (cstr p) (cstr s) (length p) i k) else fmi).
Proof.
  induction k as [| k IH]; intros i cnt fmi Hk Hc.
  - cbn. destruct (cnt =? 0); f_equal; f_equal; lia.
  - cbn [naive_scan]. rewrite Nat2Z.id.
    change 0 with (Z.of_nat 0) at 1.
    rewrite naive_compare_spec by (rewrite length_cstr; lia).
    fold (occurs_atb (cstr p) (cstr s) (length p) i). cbn [bind].
    rewrite hits_step. replace (Z.of_nat i + 1) with (Z.of_nat (S i)) by lia.
    destruct (occurs_atb (cstr p) (cstr s) (length p) i).
    + rewrite IH by lia. destruct (Z.eqb_spec (cnt + 1) 0) as [E | _]; [lia |].
      cbn [length hd]. f_equal. f_equal. lia.
    + apply IH; lia.
Qed.

(** The brute-force scanner on two strings: the occurrences among the start
    indices below [length s - length p], and the first of them. *)
Theorem naive_substring_match_spec (p s : list Z) (fmi : Z) :
  string_chars p -> string_chars s ->
  Z.of_nat (length p) < 2 ^ 31 -> Z.of_nat (length s) < 2 ^ 31 ->
  naive_substring_match (cstr p) (cstr s) fmi =
  Done (Z.of_nat (length (hits (cstr p) (cstr s) (length p) 0 (length s - length p))),
        hd fmi (hits (cstr p) (cstr s) (length p) 0 (length s - length p))).
Proof.
  intros Hp Hs Lp Ls. unfold naive_substring_match.
  rewrite (strlen_cstr p Hp), (strlen_cstr s Hs). cbn [bind].
  rewrite !to_int_small by lia.
  replace (Z.to_nat (Z.of_nat (length s) - Z.of_nat (length p)))
    with (length s - length p)%nat by lia.
  destruct (Nat.le_gt_cases (length p) (length s)) as [Hle | Hgt].
  - change 0 with (Z.of_nat 0) at 1.
    rewrite naive_scan_spec by lia. reflexivity.
  - replace (length s - length p)%nat with 0%nat by lia. reflexivity.
Qed.

(** The Rabin-Karp matcher on two strings of non-negative characters with the
    pattern no longer than the document: the occurrences among the start
    indices below [length s - length p], and the last of them. *)
Theorem rk_substring_match_spec (p s : list Z) (fmi : Z) :
  string_chars p -> string_chars s -> nonneg_chars p -> nonneg_chars s ->
  Z.of_nat (length s) < 2 ^ 31 -> (length p <= length s)%nat ->
  rk_substring_match (cstr p) (cstr s) fmi =
  Done (Z.of_nat (length (hits (cstr p) (cstr s) (length p) 0 (length s - length p))),
        last (hits (cstr p) (cstr s) (length p) 0 (length s - length p)) fmi).
Proof.
  intros Hp Hs Np Ns Ls Hm. unfold rk_substring_match.
  rewrite (strlen_cstr p Hp). cbn [bind]. rewrite to_int_small by lia.
  rewrite (rkhash_init_spec (cstr s))
    by (try apply nonneg_chars_cstr; try rewrite length_cstr; auto; lia).
  rewrite (rkhash_init_spec (cstr p))
    by (try apply nonneg_chars_cstr; try rewrite length_cstr; auto; lia).
  rewrite (strlen_cstr s Hs). cbn [bind].
  set (Inv := fun (i : nat) (c : Z) => c = horner_hash (window (cstr s) i (length p))).
  assert (forall i c, (i + length p <= length s)%nat -> Inv i c ->
            occurs_atb (cstr p) (cstr s) (length p) i = true ->
            c = horner_hash (firstn (length p) (cstr p))) as Hhit.
  { intros i c Hi -> Hocc. f_equal.
    apply occurs_atb_window; [| | exact Hocc]; rewrite length_cstr; lia. }
  assert (forall i c, (i + length p <= length s)%nat -> Inv i c ->
            Inv (S i) (rkhash_next c (256 ^ Z.of_nat (length p) mod PRIME)
                         (nth i (cstr s) 0) (nth (i + length p) (cstr s) 0))) as Hstep.
  { intros i c Hi ->. apply rkhash_next_window.
    - apply nonneg_chars_cstr, Ns.
    - rewrite length_cstr. lia. }
  change 0 with (Z.of_nat 0) at 1.
  rewrite (rk_scan_inv p s _ _ Inv Ls Hhit Hstep (length s - length p) 0).
  - reflexivity.
  - lia.
  - rewrite length_cstr. lia.
  - reflexivity.
Qed.

(** On such strings the two matchers count the same occurrences. *)
Corollary rk_naive_same_count (p s : list Z) (fmi : Z) :
  string_chars p -> string_chars s -> nonneg_chars p -> nonneg_chars s ->
  Z.of_nat (length s) < 2 ^ 31 -> (length p <= length s)%nat ->
  exists c f1 f2,
    rk_substring_match (cstr p) (cstr s) fmi = Done (c, f1) /\
    naive_substring_match (cstr p) (cstr s) fmi = Done (c, f2).
Proof.
  intros Hp Hs Np Ns Ls Hm.
  rewrite rk_substring_match_spec, naive_substring_match_spec by (assumption || lia).
  eauto.
Qed.

(** * The loop budget is never exhausted *)

Lemma bind_terminates {A B : Type} (x : outcome A) (k : A -> outcome B) :
  terminates x -> (forall a, x = Done a -> terminates (k a)) -> terminates (bind x k).
Proof.
  unfold terminates. intros Hx Hk. destruct x as [a | |]; cbn [bind];
    [apply Hk; reflexivity | discriminate | contradiction].
Qed.

Lemma rd_terminates p i : terminates (rd p i).
Proof.
  unfold terminates, rd. destruct (i <? 0); [discriminate |].
  destruct (nth_error p (Z.to_nat i)); discriminate.
Qed.

Lemma strlen_terminates p : terminates (strlen p).
Proof.
  induction p as [| c p IH]; cbn [strlen]; [discriminate |].
  destruct (c =? 0); [discriminate |].
  apply bind_terminates; [exact IH | discriminate].
Qed.

Lemma rkhash_init_terminates charbuf m : terminates (rkhash_init charbuf m).
Proof.
  unfold rkhash_init. generalize 1 0. induction (Z.to_nat m) as [| n IH]; intros h sum.
  - discriminate.
  - cbn [rkhash_init_from]. apply bind_terminates; [apply rd_terminates | intros; apply IH].
Qed.

Lemma rk_verify_terminates k pattern doc i : forall j, terminates (rk_verify k pattern doc i j).
Proof.
  induction k as [| k IH]; intros j; cbn [rk_verify]; [discriminate |].
  apply bind_terminates; [apply rd_terminates | intros a _].
  apply bind_terminates; [apply rd_terminates | intros b _].
  destruct (a =? b); [apply IH | discriminate].
Qed.

Create HintDb fuel.

#[local] Hint Resolve rd_terminates strlen_terminates rkhash_init_terminates
  rk_verify_terminates : fuel.

(** Each pass reads [doc[i]], so [i] cannot go beyond the object. *)
Lemma rk_scan_terminates pattern doc m n h pattern_hash :
  forall (fuel : nat) (i curr_hash sum_matches fmi : Z),
    Z.of_nat (length doc) <= i + Z.of_nat fuel ->
    terminates (rk_scan (S fuel) pattern doc m n h pattern_hash i curr_hash sum_matches fmi).
Proof.
  induction fuel as [| fuel IH]; intros i c cnt fmi Hi; cbn [rk_scan];
    (destruct (negb (rk_continue n m i)); [discriminate |]);
    (apply bind_terminates;
     [ destruct (c =? pattern_hash); [| discriminate];
       apply bind_terminates; [auto with fuel | intros ver _; discriminate]
     | intros [cnt' fmi'] _ ]).
  - rewrite rd_outside by lia. discriminate.
  - apply bind_terminates; [auto with fuel | intros l _].
    apply bind_terminates; [auto with fuel | intros r _].
    fold rk_scan. apply IH. lia.
Qed.

Theorem rk_substring_match_terminates pattern doc fmi :
  terminates (rk_substring_match pattern doc fmi).
Proof.
  unfold rk_substring_match.
  apply bind_terminates; [auto with fuel | intros lp _].
  apply bind_terminates; [auto with fuel | intros [c h] _].
  apply bind_terminates; [auto with fuel | intros [ph h'] _].
  apply bind_terminates; [auto with fuel | intros n _].
  apply rk_scan_terminates. lia.
Qed.

Section FilterTermination.
Context {B : BloomFilter}.

Lemma bloom_scan_terminates doc m n h :
  forall (fuel : nat) (i curr_hash : Z) (bf : bloom_filter),
    Z.of_nat (length doc) <= i + Z.of_nat fuel ->
    terminates (bloom_scan (S fuel) doc m n h i curr_hash bf).
Proof.
  induction fuel as [| fuel IH]; intros i c bf Hi; cbn [bloom_scan];
    (destruct (negb (bloom_continue n m i)); [discriminate |]).
  - rewrite rd_outside by lia. discriminate.
  - apply bind_terminates; [auto with fuel | intros l _].
    apply bind_terminates; [auto with fuel | intros r _].
    fold bloom_scan. apply IH. lia.
Qed.

Theorem rk_create_doc_bloom_terminates m doc bloom_size :
  terminates (rk_create_doc_bloom m doc bloom_size).
Proof.
  unfold rk_create_doc_bloom. destruct (bloom_init bloom_size); [| discriminate].
  apply bind_terminates; [auto with fuel | intros [c h] _].
  apply bind_terminates; [auto with fuel | intros n _].
  apply bloom_scan_terminates. lia.
Qed.

Theorem rk_substring_match_using_bloom_terminates pattern doc bf fmi :
  terminates (rk_substring_match_using_bloom pattern doc bf fmi).
Proof.
  unfold rk_substring_match_using_bloom.
  apply bind_terminates; [auto with fuel | intros lp _].
  apply bind_terminates; [auto with fuel | intros [ph h] _].
  destruct (bloom_query bf ph); [| discriminate].
  apply bind_terminates; [apply rk_substring_match_terminates | intros [c f] _].
  discriminate.
Qed.
End FilterTermination.

(** * Rolling against recomputing *)

Lemma window_cstr s (i m : nat) :
  (i + m <= length s)%nat -> window (cstr s) i m = window s i m.
Proof.
  intros Hb. unfold window, cstr. rewrite skipn_app, firstn_app, length_skipn.
  replace (m - (length s - i))%nat with 0%nat by lia.
  cbn [firstn]. apply app_nil_r.
Qed.




(** * The filter holds the hash of every window *)

Lemma bloom_continue_inside (n m i : nat) :
  Z.of_nat n < 2 ^ 31 -> (m <= n)%nat -> (i <= S n)%nat ->
  bloom_continue (Z.of_nat n) (Z.of_nat m) (Z.of_nat i) =
  (Z.of_nat i <? Z.of_nat (n - m + 1)).
Proof.
  intros Hn Hm Hi. unfold bloom_continue.
  rewrite (to_size_t_small (Z.of_nat m)) by lia.
  rewrite (to_size_t_small (Z.of_nat n - Z.of_nat m)) by lia.
  rewrite !to_size_t_small by lia. f_equal. lia.
Qed.

Section FilterContents.
Context {B : BloomFilter}.
Variable s : list Z.
Variable m : nat.
Hypothesis Hs : nonneg_chars s.
Hypothesis Hlen : Z.of_nat (length s) < 2 ^ 31.
Hypothesis Hm : (m <= length s)%nat.

Lemma bloom_scan_spec : forall (k i fuel : nat) (bf : bloom_filter),
    (i + k = length s - m + 1)%nat -> (k < fuel)%nat ->
    exists bf',
      bloom_scan fuel (cstr s) (Z.of_nat m) (Z.of_nat (length s))
        (256 ^ Z.of_nat m mod PRIME) (Z.of_nat i)
        (horner_hash (window (cstr s) i m)) bf = Done bf' /\
      (forall y, bloom_query bf y = true -> bloom_query bf' y = true) /\
      (forall j, (i <= j < i + k)%nat ->
                 bloom_query bf' (horner_hash (window (cstr s) j m)) = true).
Proof.
  induction k as [| k IH]; intros i fuel bf Hk Hf;
    (destruct fuel as [| fuel]; [lia |]); cbn [bloom_scan];
    rewrite bloom_continue_inside by lia.
  - destruct (Z.ltb_spec (Z.of_nat i) (Z.of_nat (length s - m + 1))); [lia |].
    cbn [negb]. exists bf. repeat split; [auto | intros j Hj; lia].
  - destruct (Z.ltb_spec (Z.of_nat i) (Z.of_nat (length s - m + 1))); [| lia].
    cbn [negb].
    replace (Z.of_nat i + Z.of_nat m) with (Z.of_nat (i + m)) by lia.
    rewrite !rd_nth by (rewrite length_cstr; lia). cbn [bind].
    rewrite rkhash_next_window
      by (try apply nonneg_chars_cstr; try rewrite length_cstr; auto; lia).
    replace (Z.of_nat i + 1) with (Z.of_nat (S i)) by lia.
    destruct (IH (S i) fuel (bloom_add bf (horner_hash (window (cstr s) i m)))
                ltac:(lia) ltac:(lia)) as (bf' & Hrun & Hmono & Hall).
    exists bf'. split; [exact Hrun |]. split.
    + intros y Hy. apply Hmono, bloom_query_mono, Hy.
    + intros j Hj. destruct (Nat.eq_dec j i) as [-> | Hne].
      * apply Hmono, bloom_query_add.
      * apply Hall. lia.
Qed.

(** [rk_create_doc_bloom] succeeds, and the filter answers [true] for the
    hash of each of the [length s - m + 1] windows. *)
Lemma rk_create_doc_bloom_spec (bloom_size : Z) :
  string_chars s -> 0 < bloom_size ->
  exists bf,
    rk_create_doc_bloom (Z.of_nat m) (cstr s) bloom_size = Done bf /\
    forall j, (j + m <= length s)%nat ->
              bloom_query bf (horner_hash (window s j m)) = true.
Proof.
  intros Hstr Hsize. unfold rk_create_doc_bloom.
  destruct (bloom_init bloom_size) as [bf0 |] eqn:E;
    [| exfalso; exact (bloom_init_pos bloom_size Hsize E)].
  rewrite rkhash_init_spec
    by (try apply nonneg_chars_cstr; try rewrite length_cstr; auto; lia).
  cbn [bind]. rewrite (strlen_cstr s Hstr). cbn [bind].
  change (firstn m (cstr s)) with (window (cstr s) 0 m).
  change 0 with (Z.of_nat 0) at 1.
  destruct (bloom_scan_spec (length s - m + 1) 0 (S (length (cstr s))) bf0)
    as (bf & Hrun & _ & Hall); [lia | rewrite length_cstr; lia |].
  exists bf. split; [exact Hrun |].
  intros j Hj. rewrite <- window_cstr by exact Hj. apply Hall. lia.
Qed.
End FilterContents.

(** * A pattern longer than the document *)

Lemma rkhash_init_from_inside charbuf : forall (n : nat) (h sum : Z),
  (n <= length charbuf)%nat -> exists r, rkhash_init_from charbuf n h sum = Done r.
Proof.
  induction n as [| n IH]; intros h sum Hn; cbn [rkhash_init_from]; [eauto |].
  rewrite rd_nth by lia. cbn [bind]. apply IH. lia.
Qed.

(** The unsigned difference wraps, and the loop is entered. *)
Lemma rk_continue_wraps (n m : Z) :
  0 <= n < m -> m < 2 ^ 31 -> rk_continue n m 0 = true.
Proof.
  intros Hn Hm. unfold rk_continue, to_size_t.
  rewrite (Z.mod_small m) by lia.
  replace (n - m) with (n - m + 2 ^ 64 + (-1) * 2 ^ 64) by ring.
  rewrite Z.mod_add by lia. rewrite (Z.mod_small (n - m + 2 ^ 64)) by lia.
  apply Z.ltb_lt. rewrite Z.mod_small; lia.
Qed.

(** X15 ([rk_substring_match] on a pattern longer than the document): the
    matcher reads behind the terminator of the document, in [rkhash_init]
    when the pattern is longer by two or more, otherwise in the first pass of
    the loop, at [doc[i + m]]. *)
Theorem rk_substring_match_long_pattern (p s : list Z) (fmi : Z) :
  string_chars p -> string_chars s ->
  (length s < length p)%nat -> Z.of_nat (length p) < 2 ^ 31 ->
  rk_substring_match (cstr p) (cstr s) fmi = Undefined.
Proof.
  intros Hp Hs Hlt Lp. unfold rk_substring_match.
  rewrite (strlen_cstr p Hp). cbn [bind]. rewrite to_int_small by lia.
  unfold rkhash_init. rewrite Nat2Z.id.
  destruct (Nat.eq_dec (length p) (S (length s))) as [E | NE].
  - destruct (rkhash_init_from_inside (cstr s) (length p) 1 0) as [[c h] ->];
      [rewrite length_cstr; lia |].
    destruct (rkhash_init_from_inside (cstr p) (length p) 1 0) as [[ph h'] ->];
      [rewrite length_cstr; lia |].
    cbn [bind]. rewrite (strlen_cstr s Hs). cbn [bind rk_scan].
    rewrite rk_continue_wraps by lia. cbn [negb]. rewrite Nat2Z.id.
    assert (rd (cstr s) (0 + Z.of_nat (length p)) = Undefined) as Hout
      by (apply rd_outside; rewrite length_cstr; lia).
    assert (rd (cstr s) 0 = Done (nth 0 (cstr s) 0)) as Hin
      by (apply (rd_nth (cstr s) 0); rewrite length_cstr; lia).
    destruct (c =? ph).
    + pose proof (rk_verify_spec (cstr p) (cstr s) 0 (length p) 0) as Hv.
      rewrite !length_cstr in Hv. specialize (Hv ltac:(lia) ltac:(lia)).
      cbn [Nat.add] in Hv. change (Z.of_nat 0) with 0 in Hv. rewrite Hv. cbn [bind].
      destruct (forallb _ _); rewrite Hin, Hout; reflexivity.
    + cbn [bind]. rewrite Hin, Hout. reflexivity.
  - destruct (length p) as [| n'] eqn:El; [lia |].
    cbn [rkhash_init_from]. rewrite rd_outside by (rewrite length_cstr; lia).
    reflexivity.
Qed.

(** * The empty pattern *)

Lemma rem_small_abs c : - PRIME < c < PRIME -> Z.rem c PRIME = c.
Proof.
  intros Hc. destruct (Z.le_gt_cases 0 c) as [Hpos | Hneg].
  - apply Z.rem_small. lia.
  - rewrite <- (Z.opp_involutive c) at 1. rewrite Z.rem_opp_l by discriminate.
    rewrite Z.rem_small by lia. lia.
Qed.

(** With [m = 0] the hash stays [0] whatever the character. *)
Lemma rkhash_next_empty c : - PRIME < c < PRIME -> rkhash_next 0 1 c c = 0.
Proof.
  intros Hc. unfold rkhash_next, mmul, madd, msub.
  rewrite Z.mul_1_r, (rem_small_abs c Hc). change (Z.rem (0 * 256) PRIME) with 0.
  destruct (Z.gtb_spec 0 c).
  - replace (0 - c + c) with 0 by ring. reflexivity.
  - replace (0 + PRIME - c + c) with PRIME by ring. reflexivity.
Qed.

Lemma string_chars_nth_cstr s (i : nat) :
  string_chars s -> -128 <= nth i (cstr s) 0 <= 255.
Proof.
  intros Hs. destruct (Nat.lt_ge_cases i (length (cstr s))) as [Hi | Hi].
  - assert (Forall (fun c => -128 <= c <= 255) (cstr s)) as Hall.
    { unfold cstr. apply Forall_app. split.
      - eapply Forall_impl; [| exact Hs]. cbn. intros c [Hc _]. exact Hc.
      - constructor; [lia | constructor]. }
    rewrite Forall_forall in Hall. apply Hall, nth_In, Hi.
  - rewrite nth_overflow by exact Hi. lia.
Qed.

Lemma hits_empty_pattern pattern doc (k : nat) : forall i,
  hits pattern doc 0 i k = map Z.of_nat (seq i k).
Proof.
  induction k as [| k IH]; intros i; [reflexivity |].
  rewrite hits_step. cbn [occurs_atb seq forallb map]. f_equal. apply IH.
Qed.

Lemma last_indices (n : nat) (d : Z) :
  last (map Z.of_nat (seq 0 n)) d = if (n =? 0)%nat then d else Z.of_nat n - 1.
Proof.
  destruct n as [| n]; [reflexivity |].
  rewrite seq_S, map_app. cbn [map]. rewrite last_last. cbn [Nat.eqb Nat.add]. lia.
Qed.

(** * Bytes and characters *)




Lemma firstn_cstr p : firstn (length p) (cstr p) = p.
Proof. unfold cstr. rewrite firstn_app, Nat.sub_diag, firstn_all. apply app_nil_r. Qed.

Lemma rkhash_init_cstr p :
  nonneg_chars p ->
  rkhash_init (cstr p) (Z.of_nat (length p)) =
  Done (horner_hash p, 256 ^ Z.of_nat (length p) mod PRIME).
Proof.
  intros Hp. rewrite rkhash_init_spec, firstn_cstr;
    [reflexivity | apply nonneg_chars_cstr, Hp | rewrite length_cstr; lia].
Qed.


Lemma hits_nil pattern doc (m : nat) : forall (k i : nat),
  (forall j, (i <= j < i + k)%nat -> occurs_atb pattern doc m j = false) ->
  hits pattern doc m i k = [].
Proof.
  induction k as [| k IH]; intros i Hno; [reflexivity |].
  rewrite hits_step, (Hno i) by lia. apply IH. intros j Hj. apply Hno. lia.
Qed.

(** * The filtered matcher against the exact one *)

(** X16 (the filtered matcher against the exact one): with the filter built
    from the document for the length of the pattern, both matchers leave the
    same value in [*first_match_ind]; on a negative query the filtered
    matcher returns [0], which is the count of the exact matcher; on a
    positive query it returns no value. *)
Theorem filtered_match_vs_exact {B : BloomFilter} (p s : list Z) (bloom_size fmi : Z) :
  string_chars p -> string_chars s -> nonneg_chars p -> nonneg_chars s ->
  Z.of_nat (length s) < 2 ^ 31 -> (length p <= length s)%nat -> 0 < bloom_size ->
  exists bf c f,
    rk_create_doc_bloom (Z.of_nat (length p)) (cstr s) bloom_size = Done bf /\
    rk_substring_match (cstr p) (cstr s) fmi = Done (c, f) /\
    (rk_substring_match_using_bloom (cstr p) (cstr s) bf fmi = Done (None, f) \/
     rk_substring_match_using_bloom (cstr p) (cstr s) bf fmi = Done (Some 0, f) /\ c = 0).
Proof.
  intros Hp Hs Np Ns Ls Hm Hsize.
  destruct (rk_create_doc_bloom_spec s (length p) Ns Ls Hm bloom_size Hs Hsize)
    as (bf & Hbf & Hall).
  exists bf. rewrite (rk_substring_match_spec p s fmi) by assumption.
  do 2 eexists. split; [exact Hbf |]. split; [reflexivity |].
  unfold rk_substring_match_using_bloom.
  rewrite (strlen_cstr p Hp). cbn [bind]. rewrite to_int_small by lia.
  rewrite (rkhash_init_cstr p Np). cbn [bind].
  destruct (bloom_query bf (horner_hash p)) eqn:Hq.
  - left. rewrite (rk_substring_match_spec p s fmi) by assumption. reflexivity.
  - right. rewrite hits_nil; [split; reflexivity |].
    intros j Hj. destruct (occurs_atb (cstr p) (cstr s) (length p) j) eqn:Hocc;
      [| reflexivity].
    apply occurs_atb_cstr in Hocc; [| lia].
    specialize (Hall j ltac:(lia)). rewrite Hocc in Hall. congruence.
Qed.

(** * The properties of the design, against the code *)

(** C1 (agreement of the Rabin-Karp matcher with the brute-force scanner):
    on pattern "ab" and document "ababab" both matchers return the count 2,
    but the brute-force scanner leaves the first matching index 0 in
    [*first_match_ind] and [rk_substring_match] leaves 2, the index of its
    last match. *)
Theorem rk_and_naive_differ_on_first_index (fmi : Z) :
  naive_substring_match (lit "ab") (lit "ababab") fmi = Done (2, 0) /\
  rk_substring_match (lit "ab") (lit "ababab") fmi = Done (2, 2).
Proof. split; vm_compute; reflexivity. Qed.

(** C2 (the filtered matcher returns what the exact matcher returns): with
    the filter built from document "ab" for window length 1, the query for
    the hash of "a" is positive; [rk_substring_match_using_bloom] then runs
    the exact matcher, which returns 1, and reaches the end of its body
    without returning a value. *)
Theorem filtered_match_returns_no_value :
  exists bf,
    rk_create_doc_bloom (B := exact_filter) 1 (lit "ab") 8 = Done bf /\
    bloom_query (BloomFilter := exact_filter) bf 97 = true /\
    rk_substring_match_using_bloom (B := exact_filter) (lit "a") (lit "ab") bf (-1)
    = Done (None, 0) /\
    rk_substring_match (lit "a") (lit "ab") (-1) = Done (1, 0).
Proof. eexists. repeat split; vm_compute; reflexivity. Qed.

(** C3 (a match that ends at the last byte of the document is counted): on
    pattern "abc" and document "abc" the loop test [i < strlen(doc) - m] is
    false at [i = 0]; [rk_substring_match] returns 0 and does not write
    [*first_match_ind]. *)
Theorem rk_skips_the_last_window (fmi : Z) :
  rk_substring_match (lit "abc") (lit "abc") fmi = Done (0, fmi).
Proof. vm_compute. reflexivity. Qed.

(** C4 ([*first_match_ind] holds the smallest matching index): on pattern
    "ab" and document "ababab" [rk_substring_match] returns 2, not 3, and
    leaves 2 in [*first_match_ind], the index of the last match it saw. *)
Theorem rk_first_index_is_overwritten (fmi : Z) :
  rk_substring_match (lit "ab") (lit "ababab") fmi = Done (2, 2).
Proof. vm_compute. reflexivity. Qed.










(** C8 ([msub] is subtraction modulo [PRIME]): with equal operands the test
    [a > b] fails and [msub] returns [a + PRIME - a], that is [PRIME], where
    [(a - a) mod PRIME] is [0]. *)
Theorem msub_of_equal_operands (a : Z) :
  msub a a = PRIME /\ (a - a) mod PRIME = 0.
Proof.
  split.
  - unfold msub. rewrite Z.gtb_ltb, Z.ltb_irrefl. ring.
  - rewrite Z.sub_diag. reflexivity.
Qed.

(** C9 (a pattern longer than the document gives 0 without a scan): on
    pattern "x" and the empty document the unsigned [strlen(doc) - m] wraps
    to [2^64 - 1], the loop is entered and reads [doc[1]], behind the
    terminator. *)
Theorem rk_reads_behind_short_document (fmi : Z) :
  rk_continue 0 1 0 = true /\
  rd (lit "") 1 = Undefined /\
  rk_substring_match (lit "x") (lit "") fmi = Undefined.
Proof. repeat split; vm_compute; reflexivity. Qed.

(** C10 (the empty pattern): for every document, [rk_substring_match] with
    the empty pattern is defined; every start index below the length of the
    document counts as a match, so it returns the length of the document and
    leaves the last index, [length - 1], in [*first_match_ind] (untouched
    when the document is empty). *)
Theorem rk_substring_match_empty_pattern (s : list Z) (fmi : Z) :
  string_chars s -> Z.of_nat (length s) < 2 ^ 31 ->
  hits (cstr []) (cstr s) 0 0 (length s) = map Z.of_nat (seq 0 (length s)) /\
  rk_substring_match (cstr []) (cstr s) fmi =
  Done (Z.of_nat (length s),
        if (length s =? 0)%nat then fmi else Z.of_nat (length s) - 1).
Proof.
  intros Hs Ls. split; [apply hits_empty_pattern |]. unfold rk_substring_match.
  change (strlen (cstr [])) with (Done (A := Z) 0). cbn [bind].
  change (to_int 0) with 0.
  change (rkhash_init (cstr s) 0) with (Done (A := Z * Z) (0, 1)).
  change (rkhash_init (cstr []) 0) with (Done (A := Z * Z) (0, 1)).
  cbn [bind]. rewrite (strlen_cstr s Hs). cbn [bind].
  assert (forall (i : nat) (c : Z),
            (i + 0 <= length s)%nat -> c = 0 ->
            rkhash_next c 1 (nth i (cstr s) 0) (nth (i + 0) (cstr s) 0) = 0) as Hstep.
  { intros i c _ ->. rewrite Nat.add_0_r. apply rkhash_next_empty.
    pose proof (string_chars_nth_cstr s i Hs). unfold PRIME. lia. }
  pose proof (rk_scan_inv [] s 1 0 (fun _ c => c = 0) Ls
                (fun i c _ Hc _ => Hc) Hstep (length s) 0%nat) as Hscan.
  cbn [length] in Hscan. change (Z.of_nat 0) with 0 in Hscan.
  rewrite Hscan; [| lia | rewrite length_cstr; lia | reflexivity].
  rewrite hits_empty_pattern, length_map, length_seq, last_indices. reflexivity.
Qed.

Lemma rk_substring_match_empty_pattern_witness :
  hits (cstr []) (cstr [104; 105; -61]) 0 0 (length [104; 105; -61]) =
  map Z.of_nat (seq 0 (length [104; 105; -61])) /\
  rk_substring_match (cstr []) (cstr [104; 105; -61]) 7 =
  Done (Z.of_nat (length [104; 105; -61]),
        if (length [104; 105; -61]%Z =? 0)%nat
        then 7 else Z.of_nat (length [104; 105; -61]) - 1).
Proof.
  apply (rk_substring_match_empty_pattern [104; 105; -61] 7).
  - repeat constructor; lia.
  - simpl. lia.
Defined.

(** * Further properties of the code *)

(** ** Arithmetic on any representative *)

Lemma rem_offset x : exists q, Z.rem x PRIME = x + q * PRIME.
Proof. exists (- (Z.quot x PRIME)). rewrite Z.rem_eq by discriminate. ring. Qed.

Lemma mod_eq_offset x y : x mod PRIME = y mod PRIME -> exists q, x = y + q * PRIME.
Proof.
  intros H. exists (x / PRIME - y / PRIME).
  pose proof (Z.div_mod x PRIME ltac:(discriminate)).
  pose proof (Z.div_mod y PRIME ltac:(discriminate)). lia.
Qed.

Lemma madd_mod a b : (madd a b) mod PRIME = (a + b) mod PRIME.
Proof.
  unfold madd. destruct (rem_offset (a + b)) as [q ->].
  apply mod_same_offset with (q := q). reflexivity.
Qed.

Lemma mmul_mod a b : (mmul a b) mod PRIME = (a * b) mod PRIME.
Proof.
  unfold mmul. destruct (rem_offset (a * b)) as [q ->].
  apply mod_same_offset with (q := q). reflexivity.
Qed.



Lemma rkhash_next_mod_any (curr_hash h leftmost rightmost : Z) :
  (rkhash_next curr_hash h leftmost rightmost) mod PRIME =
  (256 * curr_hash - leftmost * h + rightmost) mod PRIME.
Proof.
  unfold rkhash_next. rewrite madd_mod.
  rewrite <- Z.add_mod_idemp_l, msub_mod by discriminate.
  rewrite Zminus_mod, !mmul_mod, <- Zminus_mod, Z.add_mod_idemp_l by discriminate.
  f_equal. ring.
Qed.



(** ** The hash of characters of either signedness *)

(** The loop of [rkhash_init] on any characters: the radix power is exact,
    the sum is right modulo [PRIME]. *)
Lemma rkhash_init_from_congruent charbuf : forall (n : nat) (k sum t : Z),
  (n <= length charbuf)%nat -> 0 <= k ->
  sum mod PRIME = t mod PRIME -> - PRIME < sum < PRIME ->
  exists sum',
    rkhash_init_from charbuf n (256 ^ k mod PRIME) sum =
    Done (sum', 256 ^ (k + Z.of_nat n) mod PRIME) /\
    sum' mod PRIME = (poly256 (firstn n charbuf) * 256 ^ k + t) mod PRIME /\
    - PRIME < sum' < PRIME.
Proof.
  induction n as [| n IH]; intros k sum t Hn Hk Hs Hb.
  - exists sum. cbn [rkhash_init_from firstn poly256]. rewrite Z.add_0_r.
    repeat split; try lia. rewrite Hs. f_equal.
  - cbn [rkhash_init_from]. rewrite rd_nth by lia. cbn [bind].
    set (c := nth n charbuf 0).
    pose proof (Z.mod_pos_bound (256 ^ k) PRIME PRIME_pos) as Hh.
    rewrite (mmul_nonneg _ 256) by lia.
    rewrite Z.mul_mod_idemp_l by discriminate.
    replace (256 ^ k * 256) with (256 ^ (k + 1)) by (rewrite Z.pow_add_r by lia; lia).
    destruct (IH (k + 1) (madd (mmul (256 ^ k mod PRIME) c) sum) (c * 256 ^ k + t))
      as (sum' & Hrun & Hcong & Hbound); [lia | lia | | apply madd_bound |].
    + rewrite madd_mod, Z.add_mod, mmul_mod, Z.mul_mod_idemp_l, Hs by discriminate.
      rewrite <- Z.add_mod by discriminate. f_equal. ring.
    + exists sum'. split; [| split; [| exact Hbound]].
      * rewrite Hrun. replace (k + Z.of_nat (S n)) with (k + 1 + Z.of_nat n) by lia.
        reflexivity.
      * rewrite Hcong, firstn_succ_nth by lia. fold c. rewrite poly256_snoc.
        f_equal. rewrite Z.pow_add_r by lia. ring.
Qed.

(** X3 ([rkhash_init], any representative): for characters of either
    signedness, with the first [m] of them inside the buffer, [rkhash_init]
    returns a value in [(-PRIME, PRIME)] that is congruent modulo [PRIME] to
    the polynomial of the window, and stores exactly [256^m mod PRIME]
    through [h]. *)
Theorem rkhash_init_congruent (charbuf : list Z) (m : nat) :
  (m <= length charbuf)%nat ->
  exists sum,
    rkhash_init charbuf (Z.of_nat m) = Done (sum, 256 ^ Z.of_nat m mod PRIME) /\
    sum mod PRIME = horner_hash (firstn m charbuf) /\
    - PRIME < sum < PRIME.
Proof.
  intros Hm. unfold rkhash_init, horner_hash. rewrite Nat2Z.id.
  destruct (rkhash_init_from_congruent charbuf m 0 0 0 Hm)
    as (sum & Hrun & Hcong & Hb); [lia | reflexivity | unfold PRIME; lia |].
  exists sum. split; [exact Hrun |]. split; [| exact Hb].
  rewrite Hcong. f_equal. rewrite Z.pow_0_r. ring.
Qed.

Lemma rkhash_init_congruent_witness :
  exists sum,
    rkhash_init [-56; 1; 0] (Z.of_nat 2) = Done (sum, 256 ^ Z.of_nat 2 mod PRIME) /\
    sum mod PRIME = horner_hash (firstn 2 [-56; 1; 0]) /\
    - PRIME < sum < PRIME.
Proof.
  apply (rkhash_init_congruent [-56; 1; 0] 2). simpl. lia.
Defined.

(** [k] shifts on any characters keep the hash right modulo [PRIME]. *)
Lemma roll_congruent doc (m : nat) : forall (k i : nat) (c : Z),
  (i + k + m <= length doc)%nat ->
  c mod PRIME = horner_hash (window doc i m) ->
  exists c',
    roll k doc (Z.of_nat m) (256 ^ Z.of_nat m mod PRIME) (Z.of_nat i) c = Done c' /\
    c' mod PRIME = horner_hash (window doc (i + k) m).
Proof.
  induction k as [| k IH]; intros i c Hb Hc.
  - exists c. cbn [roll]. rewrite Nat.add_0_r. split; [reflexivity | exact Hc].
  - cbn [roll].
    replace (Z.of_nat i + Z.of_nat m) with (Z.of_nat (i + m)) by lia.
    rewrite !rd_nth by lia. cbn [bind].
    replace (Z.of_nat i + 1) with (Z.of_nat (S i)) by lia.
    replace (i + S k)%nat with (S i + k)%nat by lia.
    apply IH; [lia |].
    rewrite rkhash_next_mod_any. unfold horner_hash in *.
    rewrite poly256_window_slide by lia.
    apply mod_eq_offset in Hc. destruct Hc as [q ->].
    destruct (mod_offset (256 ^ Z.of_nat m)) as [q2 ->].
    apply mod_same_offset with (q := 256 * q - nth i doc 0 * q2). ring.
Qed.

(** X4 (rolling against recomputing, any characters): for every buffer, of
    characters of either signedness, and every window inside it,
    [rkhash_init] on the first window followed by [i] times [rkhash_next],
    and [rkhash_init] on the window at [i], both return, and what they return
    is congruent modulo [PRIME] to the polynomial of that window; the two
    values can differ only by a multiple of [PRIME]. *)
Theorem rolled_hash_congruent (doc : list Z) (m i : nat) :
  (i + m <= length doc)%nat ->
  exists a b,
    rolled_hash doc (Z.of_nat m) i = Done a /\
    direct_hash doc (Z.of_nat m) i = Done b /\
    a mod PRIME = horner_hash (window doc i m) /\
    b mod PRIME = horner_hash (window doc i m).
Proof.
  intros Hb. unfold rolled_hash, direct_hash, rkhash_init. rewrite Nat2Z.id.
  assert (forall w, horner_hash w = (poly256 w * 256 ^ 0 + 0) mod PRIME) as Hh
    by (intros w; unfold horner_hash; f_equal; rewrite Z.pow_0_r; ring).
  destruct (rkhash_init_from_congruent doc m 0 0 0)
    as (c0 & Hr0 & Hc0 & _); [lia | lia | reflexivity | unfold PRIME; lia |].
  destruct (rkhash_init_from_congruent (skipn i doc) m 0 0 0)
    as (b & Hrb & Hcb & _);
    [rewrite length_skipn; lia | lia | reflexivity | unfold PRIME; lia |].
  change (256 ^ 0 mod PRIME) with 1 in Hr0, Hrb. rewrite Z.add_0_l in Hr0, Hrb.
  rewrite Hr0, Hrb. rewrite <- Hh in Hc0, Hcb.
  cbn [bind].
  destruct (roll_congruent doc m i 0 c0 ltac:(lia) Hc0) as (a & Hrun & Ha).
  change (Z.of_nat 0) with 0 in Hrun. exists a, b. repeat split; assumption.
Qed.

Lemma rolled_hash_congruent_witness :
  exists a b,
    rolled_hash [1; -56; 1; 0] (Z.of_nat 2) 1 = Done a /\
    direct_hash [1; -56; 1; 0] (Z.of_nat 2) 1 = Done b /\
    a mod PRIME = horner_hash (window [1; -56; 1; 0] 1 2) /\
    b mod PRIME = horner_hash (window [1; -56; 1; 0] 1 2).
Proof. apply (rolled_hash_congruent [1; -56; 1; 0] 2 1). simpl. lia. Defined.

(** ** Which start indices are hits *)

Lemma hits_In pattern doc (m i k j : nat) :
  In (Z.of_nat j) (hits pattern doc m i k) <->
  (i <= j < i + k)%nat /\ occurs_atb pattern doc m j = true.
Proof.
  unfold hits. rewrite in_map_iff. split.
  - intros (j' & Hj' & Hin). apply Nat2Z.inj in Hj'. subst j'.
    apply filter_In in Hin. destruct Hin as [Hin Hocc]. apply in_seq in Hin. auto.
  - intros [Hr Hocc]. exists j. split; [reflexivity |].
    apply filter_In. split; [apply in_seq; lia | exact Hocc].
Qed.

Lemma hits_In_cstr p s (k j : nat) :
  (k + length p <= length s)%nat ->
  In (Z.of_nat j) (hits (cstr p) (cstr s) (length p) 0 k) <->
  (j < k)%nat /\ window s j (length p) = p.
Proof.
  intros Hk. rewrite hits_In. split; intros [Hj H]; (split; [lia |]).
  - apply occurs_atb_cstr; [lia | exact H].
  - apply occurs_atb_cstr; [lia | exact H].
Qed.

(** The first hit, with no hit before it. *)
Lemma hits_hd pattern doc (m : nat) : forall (k i : nat) (x : Z) (rest : list Z),
  hits pattern doc m i k = x :: rest ->
  exists j, x = Z.of_nat j /\ (i <= j < i + k)%nat /\
            occurs_atb pattern doc m j = true /\
            forall j', (i <= j' < j)%nat -> occurs_atb pattern doc m j' = false.
Proof.
  induction k as [| k IH]; intros i x rest H; [discriminate |].
  rewrite hits_step in H. destruct (occurs_atb pattern doc m i) eqn:Hocc.
  - injection H as <- _. exists i. repeat split; try lia. exact Hocc.
  - destruct (IH (S i) x rest H) as (j & -> & Hr & Hj & Hbefore).
    exists j. repeat split; try lia; [exact Hj |].
    intros j' Hj'. destruct (Nat.eq_dec j' i) as [-> | Hne]; [exact Hocc |].
    apply Hbefore. lia.
Qed.

Lemma last_nonempty_default (l : list Z) (d d' : Z) : l <> [] -> last l d = last l d'.
Proof.
  induction l as [| a l IH]; intros Hl; [contradiction |].
  destruct l as [| b l]; [reflexivity |].
  change (last (b :: l) d = last (b :: l) d'). apply IH. discriminate.
Qed.

(** The last hit, with no hit after it. *)
Lemma hits_last pattern doc (m : nat) : forall (k i : nat) (d : Z),
  hits pattern doc m i k <> [] ->
  exists j, last (hits pattern doc m i k) d = Z.of_nat j /\ (i <= j < i + k)%nat /\
            occurs_atb pattern doc m j = true /\
            forall j', (j < j' < i + k)%nat -> occurs_atb pattern doc m j' = false.
Proof.
  induction k as [| k IH]; intros i d H; [contradiction H; reflexivity |].
  rewrite hits_step in *. 
  assert (hits pattern doc m (S i) k <> [] ->
          exists j, last (hits pattern doc m (S i) k) d = Z.of_nat j /\
                    (i <= j < i + S k)%nat /\ occurs_atb pattern doc m j = true /\
                    forall j', (j < j' < i + S k)%nat -> occurs_atb pattern doc m j' = false)
    as Hrest.
  { intros Hne. destruct (IH (S i) d Hne) as (j & Hl & Hr & Hj & Hafter).
    exists j. repeat split; try lia; [exact Hj |]. intros j' Hj'. apply Hafter. lia. }
  destruct (occurs_atb pattern doc m i) eqn:Hocc; [| exact (Hrest H)].
  rewrite last_cons. destruct (hits pattern doc m (S i) k) as [| y l] eqn:Hh.
  - exists i. repeat split; try lia; [exact Hocc |].
    intros j' Hj'. destruct (occurs_atb pattern doc m j') eqn:Hoj; [| reflexivity].
    assert (In (Z.of_nat j') (hits pattern doc m (S i) k)) as Hin
      by (apply hits_In; split; [lia | exact Hoj]).
    rewrite Hh in Hin. contradiction.
  - rewrite (last_nonempty_default (y :: l) (Z.of_nat i) d) by discriminate.
    apply Hrest. discriminate.
Qed.

Lemma hits_empty pattern doc (m i k : nat) :
  hits pattern doc m i k = [] ->
  forall j, (i <= j < i + k)%nat -> occurs_atb pattern doc m j = false.
Proof.
  intros Hh j Hj. destruct (occurs_atb pattern doc m j) eqn:Hocc; [| reflexivity].
  assert (In (Z.of_nat j) (hits pattern doc m i k)) as Hin by (apply hits_In; auto).
  rewrite Hh in Hin. contradiction.
Qed.

Lemma not_occurs_cstr p s (j : nat) :
  (j + length p <= length s)%nat ->
  occurs_atb (cstr p) (cstr s) (length p) j = false -> window s j (length p) <> p.
Proof.
  intros Hj Hocc Hw. apply occurs_atb_cstr in Hw; [congruence | exact Hj].
Qed.

(** ** The brute-force scanner *)

(** X5 (what [naive_substring_match] counts): for two strings, of characters
    of either signedness, the scanner returns the number of start indices [j]
    with [j + m < n] at which the pattern occurs, and leaves the first of
    them in [*first_match_ind]; an occurrence that ends with the document
    ([j + m = n]) is not among them. *)
Theorem naive_counts_occurrences (p s : list Z) (fmi : Z) :
  string_chars p -> string_chars s ->
  Z.of_nat (length p) < 2 ^ 31 -> Z.of_nat (length s) < 2 ^ 31 ->
  naive_substring_match (cstr p) (cstr s) fmi =
  Done (Z.of_nat (length (hits (cstr p) (cstr s) (length p) 0 (length s - length p))),
        hd fmi (hits (cstr p) (cstr s) (length p) 0 (length s - length p))) /\
  forall j, In (Z.of_nat j) (hits (cstr p) (cstr s) (length p) 0 (length s - length p))
            <-> (j + length p < length s)%nat /\ window s j (length p) = p.
Proof.
  intros Hp Hs Lp Ls. split; [apply naive_substring_match_spec; assumption |].
  intros j. destruct (Nat.le_gt_cases (length p) (length s)) as [Hle | Hgt].
  - rewrite hits_In_cstr by lia. split; intros [Hj Hw]; (split; [lia | exact Hw]).
  - replace (length s - length p)%nat with 0%nat by lia. cbn [hits seq filter map In].
    split; [contradiction | intros [Hj _]; lia].
Qed.

Lemma naive_counts_occurrences_witness :
  naive_substring_match (cstr [97; -61]) (cstr [97; -61; 97; -61; 98]) 9 = Done (2, 0).
Proof.
  apply (naive_counts_occurrences [97; -61] [97; -61; 97; -61; 98] 9).
  - repeat constructor; lia.
  - repeat constructor; lia.
  - simpl. lia.
  - simpl. lia.
Defined.

(** X6 (the index [naive_substring_match] stores): with a count of [0] the
    scanner leaves [*first_match_ind] as it was and the pattern occurs at no
    [j] with [j + m < n]; with a positive count it stores the smallest start
    index at which the pattern occurs. *)
Theorem naive_index_is_first_occurrence (p s : list Z) (fmi : Z) :
  string_chars p -> string_chars s ->
  Z.of_nat (length p) < 2 ^ 31 -> Z.of_nat (length s) < 2 ^ 31 ->
  exists c f,
    naive_substring_match (cstr p) (cstr s) fmi = Done (c, f) /\ 0 <= c /\
    (c = 0 -> f = fmi /\
              forall j, (j + length p < length s)%nat -> window s j (length p) <> p) /\
    (0 < c -> exists j, f = Z.of_nat j /\ (j + length p < length s)%nat /\
                        window s j (length p) = p /\
                        forall j', (j' < j)%nat -> window s j' (length p) <> p).
Proof.
  intros Hp Hs Lp Ls. rewrite naive_substring_match_spec by assumption.
  do 2 eexists. split; [reflexivity |]. split; [lia |].
  destruct (hits (cstr p) (cstr s) (length p) 0 (length s - length p))
    as [| x rest] eqn:Hh; cbn [length hd]; split; try lia.
  - intros _. split; [reflexivity |]. intros j Hj.
    apply not_occurs_cstr; [lia |]. apply (hits_empty _ _ _ _ _ Hh). lia.
  - intros _. destruct (hits_hd _ _ _ _ _ _ _ Hh) as (j & -> & Hr & Hocc & Hbefore).
    exists j. split; [reflexivity |]. split; [lia |]. split.
    + apply occurs_atb_cstr; [lia | exact Hocc].
    + intros j' Hj'. apply not_occurs_cstr; [lia |]. apply Hbefore. lia.
Qed.

Lemma naive_index_is_first_occurrence_witness :
  exists c f,
    naive_substring_match (cstr [98]) (cstr [97; 98; 98; 99]) 9 = Done (c, f) /\ 0 <= c /\
    (c = 0 -> f = 9 /\
              forall j, (j + length [98]%Z < length [97; 98; 98; 99]%Z)%nat ->
                        window [97; 98; 98; 99] j (length [98]%Z) <> [98]) /\
    (0 < c -> exists j, f = Z.of_nat j /\
                        (j + length [98]%Z < length [97; 98; 98; 99]%Z)%nat /\
                        window [97; 98; 98; 99] j (length [98]%Z) = [98] /\
                        forall j', (j' < j)%nat ->
                                   window [97; 98; 98; 99] j' (length [98]%Z) <> [98]).
Proof.
  apply (naive_index_is_first_occurrence [98] [97; 98; 98; 99] 9).
  - repeat constructor; lia.
  - repeat constructor; lia.
  - simpl. lia.
  - simpl. lia.
Defined.

(** X7 ([naive_substring_match] on a pattern that does not fit): with the
    pattern as long as the document or longer the signed loop bound
    [doc_len - m] is not positive; the scanner reads nothing behind the
    strings, returns [0] and leaves [*first_match_ind] as it was, even when
    pattern and document are equal. *)
Theorem naive_long_pattern_returns_zero (p s : list Z) (fmi : Z) :
  string_chars p -> string_chars s ->
  Z.of_nat (length p) < 2 ^ 31 -> (length s <= length p)%nat ->
  naive_substring_match (cstr p) (cstr s) fmi = Done (0, fmi).
Proof.
  intros Hp Hs Lp Hle. rewrite naive_substring_match_spec by (assumption || lia).
  replace (length s - length p)%nat with 0%nat by lia. reflexivity.
Qed.

Lemma naive_long_pattern_returns_zero_witness :
  naive_substring_match (cstr [97; 98; 99]) (cstr [97; 98; 99]) 9 = Done (0, 9).
Proof.
  apply (naive_long_pattern_returns_zero [97; 98; 99] [97; 98; 99] 9).
  - repeat constructor; lia.
  - repeat constructor; lia.
  - simpl. lia.
  - simpl. lia.
Defined.

(** X8 ([naive_substring_match] on the empty pattern): every start index
    below the length of the document counts; the scanner returns the length
    of the document and, for a non-empty document, stores index [0]. *)
Theorem naive_empty_pattern (s : list Z) (fmi : Z) :
  string_chars s -> Z.of_nat (length s) < 2 ^ 31 ->
  naive_substring_match (cstr []) (cstr s) fmi =
  Done (Z.of_nat (length s), if (length s =? 0)%nat then fmi else 0).
Proof.
  intros Hs Ls.
  rewrite (naive_substring_match_spec [] s fmi) by (assumption || constructor || (simpl; lia)).
  cbn [length]. rewrite Nat.sub_0_r, hits_empty_pattern, length_map, length_seq.
  destruct (length s) as [| n]; reflexivity.
Qed.

Lemma naive_empty_pattern_witness :
  naive_substring_match (cstr []) (cstr [104; 105; -61]) 7 = Done (3, 0).
Proof.
  apply (naive_empty_pattern [104; 105; -61] 7).
  - repeat constructor; lia.
  - simpl. lia.
Defined.

(** ** The Rabin-Karp matcher *)

(** X9 (what [rk_substring_match] counts): for two strings of non-negative
    characters with the pattern no longer than the document, the matcher
    returns the number of start indices [j] with [j + m < n] at which the
    pattern occurs, and leaves the last of them in [*first_match_ind]; an
    occurrence that ends with the document ([j + m = n]) is not among them. *)
Theorem rk_counts_occurrences (p s : list Z) (fmi : Z) :
  string_chars p -> string_chars s -> nonneg_chars p -> nonneg_chars s ->
  Z.of_nat (length s) < 2 ^ 31 -> (length p <= length s)%nat ->
  rk_substring_match (cstr p) (cstr s) fmi =
  Done (Z.of_nat (length (hits (cstr p) (cstr s) (length p) 0 (length s - length p))),
        last (hits (cstr p) (cstr s) (length p) 0 (length s - length p)) fmi) /\
  forall j, In (Z.of_nat j) (hits (cstr p) (cstr s) (length p) 0 (length s - length p))
            <-> (j + length p < length s)%nat /\ window s j (length p) = p.
Proof.
  intros Hp Hs Np Ns Ls Hle. split; [apply rk_substring_match_spec; assumption |].
  intros j. rewrite hits_In_cstr by lia.
  split; intros [Hj Hw]; (split; [lia | exact Hw]).
Qed.

Lemma rk_counts_occurrences_witness :
  rk_substring_match (cstr [97; 97]) (cstr [97; 97; 97; 97; 97]) 9 = Done (3, 2).
Proof.
  apply (rk_counts_occurrences [97; 97] [97; 97; 97; 97; 97] 9).
  - repeat constructor; lia.
  - repeat constructor; lia.
  - repeat constructor; lia.
  - repeat constructor; lia.
  - simpl. lia.
  - simpl. lia.
Defined.

(** X10 (the index [rk_substring_match] stores): on such strings, with a
    count of [0] the matcher leaves [*first_match_ind] as it was and the
    pattern occurs at no [j] with [j + m < n]; with a positive count it
    stores the largest such [j] at which the pattern occurs. *)
Theorem rk_index_is_last_occurrence (p s : list Z) (fmi : Z) :
  string_chars p -> string_chars s -> nonneg_chars p -> nonneg_chars s ->
  Z.of_nat (length s) < 2 ^ 31 -> (length p <= length s)%nat ->
  exists c f,
    rk_substring_match (cstr p) (cstr s) fmi = Done (c, f) /\ 0 <= c /\
    (c = 0 -> f = fmi /\
              forall j, (j + length p < length s)%nat -> window s j (length p) <> p) /\
    (0 < c -> exists j, f = Z.of_nat j /\ (j + length p < length s)%nat /\
                        window s j (length p) = p /\
                        forall j', (j < j')%nat -> (j' + length p < length s)%nat ->
                                   window s j' (length p) <> p).
Proof.
  intros Hp Hs Np Ns Ls Hle. rewrite rk_substring_match_spec by assumption.
  do 2 eexists. split; [reflexivity |]. split; [lia |].
  destruct (hits (cstr p) (cstr s) (length p) 0 (length s - length p))
    as [| x rest] eqn:Hh; split; cbn [length]; try lia.
  - intros _. split; [reflexivity |]. intros j Hj.
    apply not_occurs_cstr; [lia |]. apply (hits_empty _ _ _ _ _ Hh). lia.
  - intros _. rewrite <- Hh.
    destruct (hits_last (cstr p) (cstr s) (length p) (length s - length p) 0 fmi)
      as (j & Hl & Hr & Hocc & Hafter); [rewrite Hh; discriminate |].
    exists j. split; [exact Hl |]. split; [lia |]. split.
    + apply occurs_atb_cstr; [lia | exact Hocc].
    + intros j' Hj' Hb. apply not_occurs_cstr; [lia |]. apply Hafter. lia.
Qed.

Lemma rk_index_is_last_occurrence_witness :
  exists c f,
    rk_substring_match (cstr [98]) (cstr [97; 98; 98; 99]) 9 = Done (c, f) /\ 0 <= c /\
    (c = 0 -> f = 9 /\
              forall j, (j + length [98]%Z < length [97; 98; 98; 99]%Z)%nat ->
                        window [97; 98; 98; 99] j (length [98]%Z) <> [98]) /\
    (0 < c -> exists j, f = Z.of_nat j /\
                        (j + length [98]%Z < length [97; 98; 98; 99]%Z)%nat /\
                        window [97; 98; 98; 99] j (length [98]%Z) = [98] /\
                        forall j', (j < j')%nat ->
                                   (j' + length [98]%Z < length [97; 98; 98; 99]%Z)%nat ->
                                   window [97; 98; 98; 99] j' (length [98]%Z) <> [98]).
Proof.
  apply (rk_index_is_last_occurrence [98] [97; 98; 98; 99] 9).
  - repeat constructor; lia.
  - repeat constructor; lia.
  - repeat constructor; lia.
  - repeat constructor; lia.
  - simpl. lia.
  - simpl. lia.
Defined.

(** The loop of [rk_substring_match] on any characters, whatever the hashes
    are: what it counts are hits, since each is verified byte by byte. *)
Lemma rk_scan_sound p s h pattern_hash :
  Z.of_nat (length s) < 2 ^ 31 ->
  forall (k i fuel : nat) (c cnt fmi : Z),
    (i + k + length p = length s)%nat -> (k < fuel)%nat ->
    exists found,
      rk_scan fuel (cstr p) (cstr s) (Z.of_nat (length p)) (Z.of_nat (length s))
        h pattern_hash (Z.of_nat i) c cnt fmi =
      Done (cnt + Z.of_nat (length found), last found fmi) /\
      (forall x, In x found -> In x (hits (cstr p) (cstr s) (length p) i k)) /\
      (length found <= length (hits (cstr p) (cstr s) (length p) i k))%nat.
Proof.
  intros Ls. induction k as [| k IH]; intros i fuel c cnt fmi Hk Hf;
    (destruct fuel as [| fuel]; [lia |]); cbn [rk_scan];
    rewrite rk_continue_inside by lia.
  - destruct (Z.ltb_spec (Z.of_nat i) (Z.of_nat (length s - length p))); [lia |].
    exists []. cbn. repeat split; auto. do 2 f_equal. lia.
  - destruct (Z.ltb_spec (Z.of_nat i) (Z.of_nat (length s - length p))); [| lia].
    cbn [negb]. rewrite Nat2Z.id.
    pose proof (rk_verify_spec (cstr p) (cstr s) i (length p) 0) as Hv.
    rewrite Nat.add_0_r in Hv. rewrite !length_cstr in Hv.
    specialize (Hv ltac:(lia) ltac:(lia)).
    fold (occurs_atb (cstr p) (cstr s) (length p) i) in Hv.
    rewrite Hv. clear Hv. rewrite hits_step.
    replace (Z.of_nat i + Z.of_nat (length p)) with (Z.of_nat (i + length p)) by lia.
    replace (Z.of_nat i + 1) with (Z.of_nat (S i)) by lia.
    rewrite !rd_nth by (rewrite length_cstr; lia).
    destruct (occurs_atb (cstr p) (cstr s) (length p) i) eqn:Hocc;
      destruct (c =? pattern_hash); cbn [bind];
      set (c' := rkhash_next c h (nth i (cstr s) 0) (nth (i + length p) (cstr s) 0)).
    + destruct (IH (S i) fuel c' (cnt + 1) (Z.of_nat i) ltac:(lia) ltac:(lia))
        as (found & Hrun & Hin & Hlen).
      exists (Z.of_nat i :: found). rewrite Hrun, last_cons. cbn [length].
      split; [do 2 f_equal; lia |]. split; [| lia].
      intros x [<- | Hx]; [left; reflexivity | right; auto].
    + destruct (IH (S i) fuel c' cnt fmi ltac:(lia) ltac:(lia))
        as (found & Hrun & Hin & Hlen).
      exists found. split; [exact Hrun |]. split; [| cbn [length]; lia].
      intros x Hx. right. auto.
    + apply IH; lia.
    + apply IH; lia.
Qed.

Lemma last_In (l : list Z) (d : Z) : l <> [] -> In (last l d) l.
Proof.
  induction l as [| a l IH]; intros Hl; [contradiction |].
  destruct l as [| b l]; [left; reflexivity |].
  right. change (In (last (b :: l) d) (b :: l)). apply IH. discriminate.
Qed.

(** X11 ([rk_substring_match] never counts a false match): for two strings
    of characters of either signedness with the pattern no longer than the
    document, the matcher returns; its count is at most the number of start
    indices [j] with [j + m < n] at which the pattern occurs; with a count of
    [0] it leaves [*first_match_ind] as it was, and with a positive count
    the index it stores is one at which the pattern does occur. Equal hashes
    alone never make a match. *)
Theorem rk_never_counts_a_false_match (p s : list Z) (fmi : Z) :
  string_chars p -> string_chars s ->
  Z.of_nat (length s) < 2 ^ 31 -> (length p <= length s)%nat ->
  exists c f,
    rk_substring_match (cstr p) (cstr s) fmi = Done (c, f) /\
    0 <= c <= Z.of_nat (length (hits (cstr p) (cstr s) (length p) 0
                                  (length s - length p))) /\
    (c = 0 -> f = fmi) /\
    (0 < c -> exists j, f = Z.of_nat j /\ (j + length p < length s)%nat /\
                        window s j (length p) = p).
Proof.
  intros Hp Hs Ls Hle. unfold rk_substring_match.
  rewrite (strlen_cstr p Hp). cbn [bind]. rewrite to_int_small by lia.
  unfold rkhash_init. rewrite Nat2Z.id.
  destruct (rkhash_init_from_inside (cstr s) (length p) 1 0) as [[c0 h] ->];
    [rewrite length_cstr; lia |].
  destruct (rkhash_init_from_inside (cstr p) (length p) 1 0) as [[ph h'] ->];
    [rewrite length_cstr; lia |].
  cbn [bind]. rewrite (strlen_cstr s Hs). cbn [bind].
  destruct (rk_scan_sound p s h ph Ls (length s - length p) 0
              (S (length (cstr s))) c0 0 fmi)
    as (found & Hrun & Hin & Hlen); [lia | rewrite length_cstr; lia |].
  change (Z.of_nat 0) with 0 in Hrun. rewrite Hrun.
  do 2 eexists. split; [reflexivity |]. split; [lia |].
  destruct found as [| x rest] eqn:Hf; split; cbn [length]; try lia.
  - intros _. reflexivity.
  - intros _. rewrite <- Hf.
    assert (In (last found fmi) (hits (cstr p) (cstr s) (length p) 0
                                   (length s - length p))) as Hlast
      by (apply Hin; rewrite <- Hf; apply last_In; subst found; discriminate).
    unfold hits in Hlast. apply in_map_iff in Hlast.
    destruct Hlast as (j & Hj & Hfil). fold (hits (cstr p) (cstr s) (length p) 0
                                              (length s - length p)) in *.
    assert (In (Z.of_nat j) (hits (cstr p) (cstr s) (length p) 0 (length s - length p)))
      as Hjin by (unfold hits; apply in_map; exact Hfil).
    apply hits_In_cstr in Hjin; [| lia]. destruct Hjin as [Hjr Hw].
    exists j. split; [symmetry; exact Hj |]. split; [lia | exact Hw].
Qed.

Lemma rk_never_counts_a_false_match_witness :
  exists c f,
    rk_substring_match (cstr [-61; 1]) (cstr [1; -61; 1; -61; 1; 5]) 9 = Done (c, f) /\
    0 <= c <= Z.of_nat (length (hits (cstr [-61; 1]) (cstr [1; -61; 1; -61; 1; 5])
                                  (length [-61; 1]%Z) 0
                                  (length [1; -61; 1; -61; 1; 5]%Z - length [-61; 1]%Z))) /\
    (c = 0 -> f = 9) /\
    (0 < c -> exists j, f = Z.of_nat j /\
                        (j + length [-61; 1]%Z < length [1; -61; 1; -61; 1; 5]%Z)%nat /\
                        window [1; -61; 1; -61; 1; 5] j (length [-61; 1]%Z) = [-61; 1]).
Proof.
  apply (rk_never_counts_a_false_match [-61; 1] [1; -61; 1; -61; 1; 5] 9).
  - repeat constructor; lia.
  - repeat constructor; lia.
  - simpl. lia.
  - simpl. lia.
Defined.

(** ** The filter and the filtered matcher *)

Section FilterExtras.
Context {B : BloomFilter}.

Lemma bloom_scan_contents (s : list Z) (m : nat) :
  nonneg_chars s -> Z.of_nat (length s) < 2 ^ 31 -> (m <= length s)%nat ->
  forall (k i fuel : nat) (bf : bloom_filter),
    (i + k = length s - m + 1)%nat -> (k < fuel)%nat ->
    bloom_scan fuel (cstr s) (Z.of_nat m) (Z.of_nat (length s))
      (256 ^ Z.of_nat m mod PRIME) (Z.of_nat i)
      (horner_hash (window (cstr s) i m)) bf =
    Done (fold_left bloom_add
            (map (fun j => horner_hash (window (cstr s) j m)) (seq i k)) bf).
Proof.
  intros Ns Ls Hm. induction k as [| k IH]; intros i fuel bf Hk Hf;
    (destruct fuel as [| fuel]; [lia |]); cbn [bloom_scan];
    rewrite bloom_continue_inside by lia.
  - destruct (Z.ltb_spec (Z.of_nat i) (Z.of_nat (length s - m + 1))); [lia |].
    reflexivity.
  - destruct (Z.ltb_spec (Z.of_nat i) (Z.of_nat (length s - m + 1))); [| lia].
    cbn [negb].
    replace (Z.of_nat i + Z.of_nat m) with (Z.of_nat (i + m)) by lia.
    rewrite !rd_nth by (rewrite length_cstr; lia). cbn [bind].
    rewrite rkhash_next_window
      by (try apply nonneg_chars_cstr; try rewrite length_cstr; auto; lia).
    replace (Z.of_nat i + 1) with (Z.of_nat (S i)) by lia.
    rewrite IH by lia. reflexivity.
Qed.

(** X12 (what [rk_create_doc_bloom] puts into the filter): for a string of
    non-negative characters and a window length [m] up to its length, the
    result is the filter [bloom_init] gave with the hashes of the
    [n - m + 1] windows added by [bloom_add], first window first, and
    nothing else. *)
Theorem rk_create_doc_bloom_contents (s : list Z) (m : nat)
  (bloom_size : Z) (bf0 : bloom_filter) :
  string_chars s -> nonneg_chars s ->
  Z.of_nat (length s) < 2 ^ 31 -> (m <= length s)%nat ->
  bloom_init bloom_size = Some bf0 ->
  rk_create_doc_bloom (Z.of_nat m) (cstr s) bloom_size =
  Done (fold_left bloom_add
          (map (fun j => horner_hash (window s j m)) (seq 0 (length s - m + 1))) bf0).
Proof.
  intros Hs Ns Ls Hm Hinit. unfold rk_create_doc_bloom. rewrite Hinit.
  rewrite rkhash_init_spec
    by (try apply nonneg_chars_cstr; try rewrite length_cstr; auto; lia).
  cbn [bind]. rewrite (strlen_cstr s Hs). cbn [bind].
  change (firstn m (cstr s)) with (window (cstr s) 0 m).
  change 0 with (Z.of_nat 0) at 1.
  rewrite (bloom_scan_contents s m Ns Ls Hm (length s - m + 1) 0)
    by (try rewrite length_cstr; lia).
  do 2 f_equal. apply map_ext_in. intros j Hj. apply in_seq in Hj.
  rewrite window_cstr by lia. reflexivity.
Qed.

(** X13 ([rk_create_doc_bloom] with a window longer than the document): with
    [m] one more than the length of the document the unsigned loop bound
    [strlen(doc) - m + 1] wraps to [0] and the filter comes back as
    [bloom_init] gave it, nothing added; with [m] larger still,
    [rkhash_init] reads behind the terminator of the document. *)
Theorem rk_create_doc_bloom_long_window (s : list Z) (m : nat)
  (bloom_size : Z) (bf0 : bloom_filter) :
  string_chars s -> (length s < m)%nat -> Z.of_nat m < 2 ^ 31 ->
  bloom_init bloom_size = Some bf0 ->
  rk_create_doc_bloom (Z.of_nat m) (cstr s) bloom_size =
  if (m =? S (length s))%nat then Done bf0 else Undefined.
Proof.
  intros Hs Hlt Lm Hinit. unfold rk_create_doc_bloom, rkhash_init.
  rewrite Hinit, Nat2Z.id. destruct (Nat.eqb_spec m (S (length s))) as [-> | Hne].
  - destruct (rkhash_init_from_inside (cstr s) (S (length s)) 1 0) as [[c h] ->];
      [rewrite length_cstr; lia |].
    cbn [bind]. rewrite (strlen_cstr s Hs). cbn [bind bloom_scan].
    assert (bloom_continue (Z.of_nat (length s)) (Z.of_nat (S (length s))) 0 = false)
      as ->; [| reflexivity].
    unfold bloom_continue, to_size_t. rewrite (Z.mod_small (Z.of_nat (S (length s)))) by lia.
    replace (Z.of_nat (length s) - Z.of_nat (S (length s))) with (-1) by lia.
    reflexivity.
  - destruct m as [| m']; [lia |].
    cbn [rkhash_init_from]. rewrite rd_outside by (rewrite length_cstr; lia).
    reflexivity.
Qed.

End FilterExtras.

Lemma rk_create_doc_bloom_contents_witness :
  rk_create_doc_bloom (B := exact_filter) (Z.of_nat 2) (cstr [97; 98; 99]) 8 =
  Done [25187; 24930].
Proof.
  apply (rk_create_doc_bloom_contents (B := exact_filter) [97; 98; 99] 2 8 []).
  - repeat constructor; lia.
  - repeat constructor; lia.
  - simpl. lia.
  - simpl. lia.
  - reflexivity.
Defined.

Lemma rk_create_doc_bloom_long_window_witness :
  rk_create_doc_bloom (B := exact_filter) (Z.of_nat 3) (cstr [97; 98]) 8 = Done [] /\
  rk_create_doc_bloom (B := exact_filter) (Z.of_nat 4) (cstr [97; 98]) 8 = Undefined.
Proof.
  split.
  - apply (rk_create_doc_bloom_long_window (B := exact_filter) [97; 98] 3 8 []).
    + repeat constructor; lia.
    + simpl. lia.
    + simpl. lia.
    + reflexivity.
  - apply (rk_create_doc_bloom_long_window (B := exact_filter) [97; 98] 4 8 []).
    + repeat constructor; lia.
    + simpl. lia.
    + simpl. lia.
    + reflexivity.
Defined.


(** Instances of the theorems on a pattern longer than the document and on
    the filtered matcher against the exact one. *)
Lemma rk_substring_match_long_pattern_witness :
  rk_substring_match (cstr [120; 121; 122]) (cstr [120]) 9 = Undefined.
Proof.
  apply (rk_substring_match_long_pattern [120; 121; 122] [120] 9).
  - repeat constructor; lia.
  - repeat constructor; lia.
  - simpl. lia.
  - simpl. lia.
Defined.

Lemma filtered_match_vs_exact_witness :
  exists bf c f,
    rk_create_doc_bloom (B := bucket_filter) (Z.of_nat (length [98; 99]%Z))
      (cstr [97; 98; 99; 100]) 4 = Done bf /\
    rk_substring_match (cstr [98; 99]) (cstr [97; 98; 99; 100]) 9 = Done (c, f) /\
    (rk_substring_match_using_bloom (B := bucket_filter) (cstr [98; 99])
       (cstr [97; 98; 99; 100]) bf 9 = Done (None, f) \/
     rk_substring_match_using_bloom (B := bucket_filter) (cstr [98; 99])
       (cstr [97; 98; 99; 100]) bf 9 = Done (Some 0, f) /\ c = 0).
Proof.
  apply (filtered_match_vs_exact (B := bucket_filter) [98; 99] [97; 98; 99; 100] 4 9).
  - repeat constructor; lia.
  - repeat constructor; lia.
  - repeat constructor; lia.
  - repeat constructor; lia.
  - simpl. lia.
  - simpl. lia.
  - lia.
Defined.

(** ** The two matchers side by side *)

(** The hits after the first one lie behind it. *)
Lemma hits_tail_gt pattern doc (m : nat) : forall (k i j : nat) (rest : list Z),
  hits pattern doc m i k = Z.of_nat j :: rest ->
  forall y, In y rest -> exists j', y = Z.of_nat j' /\ (j < j')%nat.
Proof.
  induction k as [| k IH]; intros i j rest H y Hy; [discriminate |].
  rewrite hits_step in H. destruct (occurs_atb pattern doc m i).
  - injection H as Hj Hrest. apply Nat2Z.inj in Hj. subst j rest.
    unfold hits in Hy. apply in_map_iff in Hy. destruct Hy as (j' & <- & Hin).
    apply filter_In in Hin. destruct Hin as [Hin _]. apply in_seq in Hin.
    exists j'. split; [reflexivity | lia].
  - exact (IH (S i) j rest H y Hy).
Qed.

(** X17 (the two matchers on the same input): for two strings of
    non-negative characters with the pattern no longer than the document,
    [rk_substring_match] and [naive_substring_match] return the same count.
    With a count of [0] neither writes [*first_match_ind]; with a count of
    [1] they store the same index; with a larger count the index of the
    brute-force scanner is strictly below that of the Rabin-Karp matcher. *)
Theorem rk_and_naive_same_count (p s : list Z) (fmi : Z) :
  string_chars p -> string_chars s -> nonneg_chars p -> nonneg_chars s ->
  Z.of_nat (length s) < 2 ^ 31 -> (length p <= length s)%nat ->
  exists c f_rk f_naive,
    rk_substring_match (cstr p) (cstr s) fmi = Done (c, f_rk) /\
    naive_substring_match (cstr p) (cstr s) fmi = Done (c, f_naive) /\
    (c = 0 -> f_rk = fmi /\ f_naive = fmi) /\
    (c = 1 -> f_rk = f_naive) /\
    (1 < c -> f_naive < f_rk).
Proof.
  intros Hp Hs Np Ns Ls Hle.
  rewrite rk_substring_match_spec, naive_substring_match_spec by (assumption || lia).
  do 3 eexists. split; [reflexivity |]. split; [reflexivity |].
  destruct (hits (cstr p) (cstr s) (length p) 0 (length s - length p))
    as [| x rest] eqn:Hh.
  - cbn. repeat split; (reflexivity || (intros; lia)).
  - split; [cbn [length]; lia |]. split.
    + intros Hc. destruct rest; [reflexivity | cbn [length] in Hc; lia].
    + intros Hc. cbn [hd]. rewrite <- Hh.
      destruct (hits_hd _ _ _ _ _ _ _ Hh) as (j1 & -> & _ & _ & Hbefore).
      destruct (hits_last (cstr p) (cstr s) (length p) (length s - length p) 0 fmi)
        as (j2 & -> & _ & Hocc2 & Hafter); [rewrite Hh; discriminate |].
      destruct (Nat.lt_trichotomy j1 j2) as [Hlt | [Heq | Hgt]]; [lia | | ].
      * subst j2. exfalso. destruct rest as [| y rest']; [cbn [length] in Hc; lia |].
        assert (In y (hits (cstr p) (cstr s) (length p) 0 (length s - length p)))
          as Hy by (rewrite Hh; right; left; reflexivity).
        destruct (hits_tail_gt _ _ _ _ _ _ _ Hh y ltac:(left; reflexivity))
          as (j & -> & Hgt).
        apply hits_In in Hy. destruct Hy as [Hr Hoccj].
        rewrite (Hafter j) in Hoccj by lia. discriminate.
      * exfalso. rewrite (Hbefore j2) in Hocc2 by lia. discriminate.
Qed.

Lemma rk_and_naive_same_count_witness :
  exists c f_rk f_naive,
    rk_substring_match (cstr [97; 98]) (cstr [97; 98; 97; 98; 97; 98]) 9
    = Done (c, f_rk) /\
    naive_substring_match (cstr [97; 98]) (cstr [97; 98; 97; 98; 97; 98]) 9
    = Done (c, f_naive) /\
    (c = 0 -> f_rk = 9 /\ f_naive = 9) /\
    (c = 1 -> f_rk = f_naive) /\
    (1 < c -> f_naive < f_rk).
Proof.
  apply (rk_and_naive_same_count [97; 98] [97; 98; 97; 98; 97; 98] 9).
  - repeat constructor; lia.
  - repeat constructor; lia.
  - repeat constructor; lia.
  - repeat constructor; lia.
  - simpl. lia.
  - simpl. lia.
Defined.
